(** * Cursor pagination over an aggregation pipeline (src/pagination.js)

    A shallow embedding of the [Pagination] class: the constructor, the
    client-side result filter ([filterResults]), the cursor resolver
    ([findCursorModel]), the page assembler ([aggregationAddPagination])
    and the four memoized public operations, over a model of the document
    store; then the properties of the specification settled on them.

    The arrays of stages live in a heap, so that copies and aliases are
    told apart; the instance is a record in a state and error monad; the
    promise slots are studied a second time under an event loop, where
    calls and async functions interleave. *)

From Stdlib Require Import ZArith NArith List String Ascii Bool Lia.
From Stdlib Require Import DecimalString HexadecimalString HexadecimalN Sorted.
From stdpp Require Import base list.
Import ListNotations.

Open Scope string_scope.
Open Scope list_scope.

(* ===================================================================== *)
(** ** Records and values *)

(** Field values of a document: numbers, strings and ObjectId objects.
    [VNum z] is the number [z], an integer that is a double: every
    integer up to [2^53] in absolute value, and those beyond that the
    runtime represents.  [VOid n] is an ObjectId object with the
    identifier [n]; the string of its 24 hexadecimal digits is a
    [VStr]. *)
Inductive value :=
| VNum (z : Z)
| VStr (s : string)
| VOid (n : N).

(** A document: a JS object, as the list of its (key, value) pairs in
    insertion order. *)
Definition record := list (string * value).

(** [doc[field]]: [None] is JS [undefined]. *)
Fixpoint get (field : string) (doc : record) : option value :=
  match doc with
  | [] => None
  | (k, v) :: rest => if String.eqb k field then Some v else get field rest
  end.

(** [Object.values(doc)] *)
Definition Object_values (doc : record) : list value := map snd doc.

(** The 24 hexadecimal digits of an ObjectId. *)
Fixpoint zeros (n : nat) : string :=
  match n with
  | O => EmptyString
  | S n' => String "0" (zeros n')
  end.

Definition hex24 (n : N) : string :=
  let digits := HexadecimalString.NilZero.string_of_uint (N.to_hex_uint n) in
  zeros (24 - String.length digits) ++ digits.

(** The identifier a string of hexadecimal digits names. *)
Definition read_hex (s : string) : option N :=
  option_map N.of_hex_uint (HexadecimalString.NilEmpty.uint_of_string s).

(** *** Numbers

    A JS number is a double.  [Number_of_Z z] is the number the runtime
    reads in the integer literal [z]: [z] itself when it is a double,
    the nearest double otherwise, an infinity past the largest double. *)
Inductive Number :=
| Finite (z : Z)
| Infinity (negative : bool)
| NaN.

(** The double nearest to the positive integer [a], ties to the even
    mantissa; [None] past the largest double. *)
Definition nearest_double (a : Z) : option Z :=
  let bits := (Z.log2 a + 1)%Z in
  if (bits <=? 53)%Z then Some a
  else
    let e := (bits - 53)%Z in
    let q := Z.shiftr a e in
    let r := (a - Z.shiftl q e)%Z in
    let half := Z.shiftl 1 (e - 1) in
    let q' :=
      if (half <? r)%Z || ((r =? half)%Z && Z.odd q) then (q + 1)%Z else q in
    let x := Z.shiftl q' e in
    if (1024 <=? Z.log2 x)%Z then None else Some x.

Definition Number_of_Z (z : Z) : Number :=
  match z with
  | Z0 => Finite 0
  | Zpos _ =>
      match nearest_double z with
      | Some x => Finite x
      | None => Infinity false
      end
  | Zneg _ =>
      match nearest_double (- z) with
      | Some x => Finite (- x)
      | None => Infinity true
      end
  end.

(** [a == b] on numbers: NaN equals nothing. *)
Definition Number_eqb (a b : Number) : bool :=
  match a, b with
  | Finite x, Finite y => Z.eqb x y
  | Infinity s, Infinity t => Bool.eqb s t
  | _, _ => false
  end.

Definition decimal (z : Z) : string :=
  DecimalString.NilZero.string_of_int (Z.to_int z).

(** Whether the real [y] rounds to the double [x], for [x] from [2^53]
    on: [y] is no farther from [x] than half the way to the next double
    on its side, the half way itself counting when the mantissa of [x]
    is even. *)
Definition rounds_to (x y : Z) : bool :=
  let e := (Z.log2 x + 1 - 53)%Z in
  let ulp := Z.shiftl 1 e in
  let m := Z.shiftr x e in
  let below := if (m =? Z.shiftl 1 52)%Z then Z.shiftr ulp 1 else ulp in
  let lo := (2 * x - below)%Z in
  let hi := (2 * x + ulp)%Z in
  if Z.even m then (lo <=? 2 * y)%Z && (2 * y <=? hi)%Z
  else (lo <? 2 * y)%Z && (2 * y <? hi)%Z.

(** The decimal with the fewest digits that rounds to the double [x],
    and of those the nearest to [x]: the multiples of [10^p] on either
    side of [x] are tried, from the largest [p] down. *)
Fixpoint shortest (x : Z) (p : nat) : Z :=
  let t := (10 ^ Z.of_nat p)%Z in
  let ylo := (x / t * t)%Z in
  let yhi := (ylo + t)%Z in
  match p with
  | O => x
  | S p' =>
      match rounds_to x ylo, rounds_to x yhi with
      | true, true =>
          if (x - ylo <? yhi - x)%Z then ylo
          else if (yhi - x <? x - ylo)%Z then yhi
          else if Z.even (x / t) then ylo else yhi
      | true, false => ylo
      | false, true => yhi
      | false, false => shortest x p'
      end
  end.

Fixpoint strip_zeros (rev_digits : list ascii) : list ascii :=
  match rev_digits with
  | "0"%char :: rest => strip_zeros rest
  | _ => rev_digits
  end.

Definition significant (digits : string) : string :=
  string_of_list_ascii (rev (strip_zeros (rev (list_ascii_of_string digits)))).

(** [Number::toString] of a positive finite double with an integer
    value: its decimal digits below [2^53]; from there on the shortest
    decimal that reads back as the same double, written out in full up to
    21 digits and with an exponent beyond. *)
Definition positive_toString (x : Z) : string :=
  if (Z.log2 x <? 53)%Z then decimal x
  else
    let digits := decimal (shortest x (String.length (decimal x))) in
    let n := String.length digits in
    if Nat.leb n 21 then digits
    else
      match significant digits with
      | String d EmptyString => String d "e+" ++ decimal (Z.of_nat (n - 1))
      | String d more =>
          String d (String "." more) ++ "e+" ++ decimal (Z.of_nat (n - 1))
      | EmptyString => digits
      end.

(** [String(z)] for the number [z]. *)
Definition Number_toString (z : Z) : string :=
  match Number_of_Z z with
  | Finite Z0 => "0"
  | Finite (Zpos p) => positive_toString (Zpos p)
  | Finite (Zneg p) => "-" ++ positive_toString (Zpos p)
  | Infinity false => "Infinity"
  | Infinity true => "-Infinity"
  | NaN => "NaN"
  end.

(** [Number(s)] for a string [s] written with hexadecimal digits, as the
    24 digits of an identifier are: decimal digits alone are a decimal
    literal, decimal digits on either side of one [e] a literal with an
    exponent, [0b] before binary digits a binary literal; the empty
    string is zero and every other string is NaN. *)
Definition is_digit (c : ascii) : bool :=
  let n := nat_of_ascii c in Nat.leb 48 n && Nat.leb n 57.

Definition digit_value (c : ascii) : Z := Z.of_nat (nat_of_ascii c - 48).

Fixpoint all_chars (ok : ascii -> bool) (s : string) : bool :=
  match s with
  | EmptyString => true
  | String c rest => ok c && all_chars ok rest
  end.

Fixpoint read_digits (base acc : Z) (s : string) : Z :=
  match s with
  | EmptyString => acc
  | String c rest => read_digits base (base * acc + digit_value c)%Z rest
  end.

(** The part of [s] before its first [e], and the part after it. *)
Fixpoint split_exponent (s : string) : string * option string :=
  match s with
  | EmptyString => (EmptyString, None)
  | String c rest =>
      if Ascii.eqb c "e" then (EmptyString, Some rest)
      else let '(mantissa, exponent) := split_exponent rest in
           (String c mantissa, exponent)
  end.

Definition nonempty (s : string) : bool :=
  match s with EmptyString => false | String _ _ => true end.

Definition ToNumber_hex (s : string) : Number :=
  match s with
  | EmptyString => Finite 0
  | String "0"%char (String "b"%char bits) =>
      if nonempty bits && all_chars (fun c => Ascii.eqb c "0" || Ascii.eqb c "1") bits
      then Number_of_Z (read_digits 2 0 bits)
      else NaN
  | _ =>
      match split_exponent s with
      | (mantissa, None) =>
          if all_chars is_digit mantissa
          then Number_of_Z (read_digits 10 0 mantissa)
          else NaN
      | (mantissa, Some exponent) =>
          if nonempty mantissa && all_chars is_digit mantissa
             && nonempty exponent && all_chars is_digit exponent
          then
            let m := read_digits 10 0 mantissa in
            let e := read_digits 10 0 exponent in
            if (m =? 0)%Z then Finite 0
            else if (400 <? e)%Z then Infinity false
            else Number_of_Z (m * 10 ^ e)
          else NaN
      end
  end.

(** [String(value)], as [RegExp.prototype.exec] stringifies its
    argument: an ObjectId answers its 24 digits. *)
Definition String_of (v : value) : string :=
  match v with
  | VNum z => Number_toString z
  | VStr s => s
  | VOid n => hex24 n
  end.

Definition value_eqb (a b : value) : bool :=
  match a, b with
  | VNum x, VNum y => Z.eqb x y
  | VStr x, VStr y => String.eqb x y
  | VOid x, VOid y => N.eqb x y
  | _, _ => false
  end.

(** The store's total order on values: numbers, then strings, then
    identifiers; inside a kind the natural order. *)
Definition value_compare (a b : value) : comparison :=
  match a, b with
  | VNum x, VNum y => Z.compare x y
  | VNum _, _ => Lt
  | VStr _, VNum _ => Gt
  | VStr x, VStr y => String.compare x y
  | VStr _, VOid _ => Lt
  | VOid x, VOid y => N.compare x y
  | VOid _, _ => Gt
  end.

(* ===================================================================== *)
(** ** Pipelines *)

Inductive order := Asc | Desc.          (* 1 / -1 *)

Inductive cmp_op := OpGt | OpLt.        (* $gt / $lt *)

(** Criteria of a [$match] stage.  The operand of a comparison is an
    [option]: [None] is a JS [undefined] operand. *)
#[warnings="-register-all"]
Inductive cond :=
| CEq (field : string) (v : value)              (* { field: v } *)
| CIn (field : string) (vs : list value)        (* { field: { $in: vs } } *)
| CCmp (field : string) (op : cmp_op) (v : option value)
                                                (* { field: { $gt|$lt: v } } *)
| COr (cs : list cond).                         (* { $or: cs } *)

Inductive stage :=
| Match (c : cond)                  (* { $match: c } *)
| Sort (field : string) (o : order) (* { $sort: { field: o } } *)
| Limit (n : N)                     (* { $limit: n } *)
| Count (name : string)             (* { $count: name } *)
| Project (keep : list string).     (* { $project: { k: 1, ... } } *)

(** [Object.keys(stage)[0]] *)
Definition stage_key (a : stage) : string :=
  match a with
  | Match _ => "$match"
  | Sort _ _ => "$sort"
  | Limit _ => "$limit"
  | Count _ => "$count"
  | Project _ => "$project"
  end.

(* ===================================================================== *)
(** ** The document store *)

(** The [Model] interface the engine queries: [Model.aggregate(pipeline)]. *)
Record Model := { aggregate : list stage -> list record }.

Module Store.

(** Modelled from the spec: the query engine behind [Model.aggregate]
    is not part of the repository.  Section 6 asks for Match (equality,
    set membership, comparison, disjunction), Sort, Limit and Count
    over a sequence of records, order preserving; [$project] is the
    inclusion projection ([_id] is always kept).  A comparison never
    holds for a document without the field or for an undefined
    operand; sorting puts documents without the field first and is
    stable. *)

Definition cmp_holds (op : cmp_op) (x y : value) : bool :=
  match op, value_compare x y with
  | OpGt, Gt => true
  | OpLt, Lt => true
  | _, _ => false
  end.

Fixpoint matches (doc : record) (c : cond) : bool :=
  match c with
  | CEq f v =>
      match get f doc with Some x => value_eqb x v | None => false end
  | CIn f vs =>
      match get f doc with Some x => existsb (value_eqb x) vs | None => false end
  | CCmp f op v =>
      match get f doc, v with
      | Some x, Some y => cmp_holds op x y
      | _, _ => false
      end
  | COr cs => existsb (matches doc) cs
  end.

Definition key_le (a b : option value) : bool :=
  match a, b with
  | None, _ => true
  | Some _, None => false
  | Some x, Some y =>
      match value_compare x y with Gt => false | _ => true end
  end.

Definition doc_le (f : string) (o : order) (a b : record) : bool :=
  match o with
  | Asc => key_le (get f a) (get f b)
  | Desc => key_le (get f b) (get f a)
  end.

Fixpoint insert_doc (le : record -> record -> bool) (d : record)
  (sorted : list record) : list record :=
  match sorted with
  | [] => [d]
  | e :: rest => if le d e then d :: e :: rest else e :: insert_doc le d rest
  end.

Definition sort_docs (f : string) (o : order) (docs : list record) : list record :=
  fold_right (insert_doc (doc_le f o)) [] docs.

Definition project_doc (keep : list string) (doc : record) : record :=
  List.filter (fun kv => String.eqb (fst kv) "_id"
                         || existsb (String.eqb (fst kv)) keep) doc.

Definition run_stage (docs : list record) (a : stage) : list record :=
  match a with
  | Match c => List.filter (fun d => matches d c) docs
  | Sort f o => sort_docs f o docs
  | Limit n => firstn (N.to_nat n) docs
  | Count name =>
      match docs with
      | [] => []
      | _ => [[(name, VNum (Z.of_nat (length docs)))]]
      end
  | Project keep => map (project_doc keep) docs
  end.

Definition execute (collection : list record) (pipeline : list stage) : list record :=
  fold_left run_stage pipeline collection.

Definition model (collection : list record) : Model :=
  {| aggregate := execute collection |}.

End Store.

(* ===================================================================== *)
(** ** The engine's state *)

Inductive error :=
| CursorNotFound (id : N)   (* Error(`No record found for ID '${id}'`) *)
| TypeError                 (* property read on null or undefined *)
| SyntaxError.              (* new RegExp on an invalid pattern *)

(** Outcome of a settled promise: resolved with a value, or rejected. *)
Inductive outcome (A : Type) :=
| Val (a : A)
| Err (e : error).
Arguments Val {A} a.
Arguments Err {A} e.

(** [params.sort] *)
Record SortParams := {
  sort_field : option string;
  sort_order : option order }.

(** [params.pagination].  [after] names the identifier to start from.
    The caller gives it as the string of its 24 digits, the documented
    form, or as an ObjectId object, the form in which [getEndCursor]
    answers the end cursor of a page. *)
Inductive cursor_form := AsString | AsObjectId.

Record PaginationParams := {
  pg_first : option N;
  pg_after : option N;
  pg_after_form : cursor_form }.

(** One element of [params.filters] *)
Record Filter := {
  filter_field : string;
  filter_value : list value }.

Record Edge := { node : record; cursor : option value }.

(** [this.promises]: one slot per memoized computation; an empty slot is
    [None], a filled one holds the outcome its promise settles to. *)
Record Promises := {
  p_count : option (outcome (option value));
  p_model : option (outcome record);
  p_edge : option (outcome (list Edge));
  p_cursor : option (outcome (option value));
  p_nextPage : option (outcome bool) }.

(** Arrays of stages live in a heap and are named by their address, so
    that two names of one array see each other's pushes. *)
Definition loc := nat.

(** The fields of [this]. *)
Record Pagination := {
  promises : Promises;
  Model_ : Model;
  aggregationPipeline : loc;
  search : option string;
  pagination : PaginationParams;
  sort : SortParams;
  perPage : option N }.

(** What a run of the engine can change: the arrays, the instance, and
    (as a ghost log) the pipelines sent to [Model.aggregate] so far. *)
Record world := {
  heap : list (list stage);
  calls : list (list stage);
  this : Pagination }.

(** JS truthiness of the values the code tests with [Boolean(...)]. *)
Definition Boolean_str (s : option string) : bool :=
  match s with
  | Some s => negb (String.eqb s "")
  | None => false
  end.

Definition Boolean_opt {A} (x : option A) : bool :=
  match x with Some _ => true | None => false end.

(** *** A state and error monad for the async methods

    A computation is run from its call to the settlement of its promise:
    it answers the outcome, value or error, and the world it leaves.  The
    calls made while another one is in flight are the subject of the
    event loop, further down. *)

Definition M (A : Type) := world -> outcome A * world.

Definition ret {A} (a : A) : M A := fun w => (Val a, w).
Definition throw {A} (e : error) : M A := fun w => (Err e, w).
Definition bind {A B} (m : M A) (k : A -> M B) : M B :=
  fun w => match m w with
           | (Val a, w') => k a w'
           | (Err e, w') => (Err e, w')
           end.

Declare Scope js_scope.
Delimit Scope js_scope with js.
Notation "'let!' x ':=' m 'in' k" := (bind m (fun x => k))
  (at level 10, x name, m at level 100, k at level 200) : js_scope.
Notation "m ';;' k" := (bind m (fun _ => k))
  (at level 100, k at level 200, right associativity) : js_scope.

Definition set_heap (h : list (list stage)) (w : world) : world :=
  {| heap := h; calls := calls w; this := this w |}.
Definition set_this (t : Pagination) (w : world) : world :=
  {| heap := heap w; calls := calls w; this := t |}.
Definition set_promises (p : Promises) (t : Pagination) : Pagination :=
  {| promises := p; Model_ := Model_ t;
     aggregationPipeline := aggregationPipeline t; search := search t;
     pagination := pagination t; sort := sort t; perPage := perPage t |}.
Definition set_perPage (n : N) (t : Pagination) : Pagination :=
  {| promises := promises t; Model_ := Model_ t;
     aggregationPipeline := aggregationPipeline t; search := search t;
     pagination := pagination t; sort := sort t; perPage := Some n |}.

(** Array primitives on the heap: [a.slice()] and [a.filter(keep)]
    allocate a fresh array, [a.push(x)] and [a.unshift(x)] update [a]
    in place. *)
Definition heap_slice (a : loc) (h : list (list stage)) : loc * list (list stage) :=
  (length h, h ++ [h !!! a]).
Definition heap_filter (keep : stage -> bool) (a : loc) (h : list (list stage))
  : loc * list (list stage) :=
  (length h, h ++ [List.filter keep (h !!! a)]).
Definition heap_push (a : loc) (x : stage) (h : list (list stage)) : list (list stage) :=
  alter (fun arr => arr ++ [x]) a h.
Definition heap_unshift (a : loc) (x : stage) (h : list (list stage)) : list (list stage) :=
  alter (fun arr => x :: arr) a h.

Definition slice (a : loc) : M loc :=
  fun w => let '(l, h) := heap_slice a (heap w) in (Val l, set_heap h w).
Definition push (a : loc) (x : stage) : M unit :=
  fun w => (Val tt, set_heap (heap_push a x (heap w)) w).
Definition unshift (a : loc) (x : stage) : M unit :=
  fun w => (Val tt, set_heap (heap_unshift a x (heap w)) w).
Definition filter_array (keep : stage -> bool) (a : loc) : M loc :=
  fun w => let '(l, h) := heap_filter keep a (heap w) in (Val l, set_heap h w).
(** [await this.Model.aggregate(a)] *)
Definition Model_aggregate (a : loc) : M (list record) :=
  fun w => (Val (aggregate (Model_ (this w)) (heap w !!! a)),
            {| heap := heap w; calls := calls w ++ [heap w !!! a];
               this := this w |}).
Definition get_this : M Pagination := fun w => (Val (this w), w).
Definition modify_this (f : Pagination -> Pagination) : M unit :=
  fun w => (Val tt, set_this (f (this w)) w).

(** The memoization idiom of every method:
    [if (!this.promises.x) this.promises.x = run(); return this.promises.x]. *)
Definition memo {A} (slot : Promises -> option (outcome A))
  (store : outcome A -> Promises -> Promises) (run : M A) : M A :=
  fun w => match slot (promises (this w)) with
           | Some o => (o, w)
           | None =>
               let '(o, w') := run w in
               (o, set_this (set_promises (store o (promises (this w'))) (this w')) w')
           end.

Definition store_count o p :=
  {| p_count := Some o; p_model := p_model p; p_edge := p_edge p;
     p_cursor := p_cursor p; p_nextPage := p_nextPage p |}.
Definition store_model o p :=
  {| p_count := p_count p; p_model := Some o; p_edge := p_edge p;
     p_cursor := p_cursor p; p_nextPage := p_nextPage p |}.
Definition store_edge o p :=
  {| p_count := p_count p; p_model := p_model p; p_edge := Some o;
     p_cursor := p_cursor p; p_nextPage := p_nextPage p |}.
Definition store_cursor o p :=
  {| p_count := p_count p; p_model := p_model p; p_edge := p_edge p;
     p_cursor := Some o; p_nextPage := p_nextPage p |}.
Definition store_nextPage o p :=
  {| p_count := p_count p; p_model := p_model p; p_edge := p_edge p;
     p_cursor := p_cursor p; p_nextPage := Some o |}.
Definition no_promises : Promises :=
  {| p_count := None; p_model := None; p_edge := None;
     p_cursor := None; p_nextPage := None |}.

(* ===================================================================== *)
(** ** The Pagination class *)

(** The arguments of [new Pagination(Model, params)]; the base pipeline
    is the caller's array, passed by reference. *)
Record Params := {
  baseAggregationPipeline : loc;
  params_pagination : PaginationParams;
  params_sort : SortParams;
  params_filters : list Filter;
  params_search : option string }.

(** [Boolean(sort.field) && Boolean(sort.order)], with the two values. *)
Definition sort_configured (s : SortParams) : option (string * order) :=
  match sort_field s, sort_order s with
  | Some f, Some o => if String.eqb f "" then None else Some (f, o)
  | _, _ => None
  end.

Definition constructor (Model : Model) (params : Params)
  (h : list (list stage)) : world :=
  let '(pipeline, h) := heap_slice (baseAggregationPipeline params) h in
  let h :=
    fold_left
      (fun h filter =>
         heap_push pipeline
           (Match (CIn (filter_field filter) (filter_value filter))) h)
      (params_filters params) h in
  let h :=
    match sort_configured (params_sort params) with
    | Some (f, o) => heap_push pipeline (Sort f o) h
    | None => h
    end in
  {| heap := h;
     calls := [];
     this := {| promises := no_promises;
                Model_ := Model;
                aggregationPipeline := pipeline;
                search := params_search params;
                pagination := params_pagination params;
                sort := params_sort params;
                perPage := None |} |}.

(** [this.pagination.first || 25] *)
Definition page_size (p : PaginationParams) : N :=
  match pg_first p with
  | Some 0%N | None => 25%N
  | Some n => n
  end.

(** The constructor of the unnamed variant of the class (part_000).  It
    keeps the caller's array, [this.aggregationPipeline =
    baseAggregationPipeline], and pushes the filter stages
    [{ $match: { [filter.field]: filter.value } }] and the sort stage
    onto it. *)
Module Variant.

Record Filter := {
  filter_field : string;
  filter_value : value }.

Definition constructor (Model : Model) (baseAggregationPipeline : loc)
  (pagination : PaginationParams) (sort : SortParams) (filters : list Filter)
  (search : option string) (h : list (list stage)) : world :=
  let pipeline := baseAggregationPipeline in
  let h :=
    fold_left
      (fun h filter =>
         heap_push pipeline
           (Match (CEq (filter_field filter) (filter_value filter))) h)
      filters h in
  let h :=
    match sort_configured sort with
    | Some (f, o) => heap_push pipeline (Sort f o) h
    | None => h
    end in
  {| heap := h;
     calls := [];
     this := {| promises := no_promises;
                Model_ := Model;
                aggregationPipeline := pipeline;
                search := search;
                pagination := pagination;
                sort := sort;
                perPage := None |} |}.

End Variant.

(** [new RegExp(pattern, flags)], the constructor of the JS runtime: on a
    pattern it refuses it throws a SyntaxError ([None]); otherwise it
    answers a regular expression, here the test [regex.exec(s) !== null]
    on a string (without the flags [g] and [y] a regular expression has
    no state). *)
Definition RegExp_constructor := string -> string -> option (string -> bool).

(** A call that returns or throws without touching the instance: a
    throw inside an async function rejects its promise. *)
Definition of_outcome {A} (o : outcome A) : M A := fun w => (o, w).

Section Engine.

Variable RegExp : RegExp_constructor.

(** [afterCursorModelCount == pagination.first] *)
Definition count_is_first (count : Z) (pagination : option PaginationParams) : bool :=
  match pagination with
  | Some p =>
      match pg_first p with
      | Some n => Z.eqb count (Z.of_N n)
      | None => false
      end
  | None => false
  end.

(** [Boolean(pagination) && Boolean(pagination.after)], with the cursor. *)
Definition after_of (pagination : option PaginationParams) : option N :=
  match pagination with
  | Some p => pg_after p
  | None => None
  end.

(** [x == s] for a field value [x] and a string [s], by the rules of
    loose equality: a string equals the same string; a number is
    compared with the number the string reads as; an ObjectId object is
    compared through its primitive, the string of its 24 digits;
    [undefined] equals no string. *)
Definition loose_eq_string (x : option value) (s : string) : bool :=
  match x with
  | Some (VStr t) => String.eqb t s
  | Some (VNum z) => Number_eqb (Number_of_Z z) (ToNumber_hex s)
  | Some (VOid n) => String.eqb (hex24 n) s
  | None => false
  end.

(** [x == o] for a field value [x] and an ObjectId object [o] of the
    caller.  Two objects are equal only when they are the same object,
    and the objects of a record come fresh from the store; a string or
    a number is compared with the primitive of [o]. *)
Definition loose_eq_object (x : option value) (o : N) : bool :=
  match x with
  | Some (VOid _) => false
  | _ => loose_eq_string x (hex24 o)
  end.

(** [result._id == pagination.after] *)
Definition id_is (id : option value) (pagination : option PaginationParams) : bool :=
  match pagination with
  | Some p =>
      match pg_after p, pg_after_form p with
      | Some a, AsString => loose_eq_string id (hex24 a)
      | Some a, AsObjectId => loose_eq_object id a
      | None, _ => false
      end
  | None => false
  end.

(** The loop [for (let value of Object.values(result))] with
    [if (regex.exec(value)) return true]. *)
Fixpoint values_loop (regex : string -> bool) (values : list value) : bool :=
  match values with
  | [] => false
  | value :: rest =>
      if regex (String_of value) then true else values_loop regex rest
  end.

Definition some_value_matches (regex : string -> bool) (result : record) : bool :=
  values_loop regex (Object_values result).

(** The callback of [results.filter], with the captured counter
    [afterCursorModelCount] threaded through the scan. *)
Fixpoint filterResults_scan (regex : string -> bool)
  (pagination : option PaginationParams)
  (afterCursorModelCount : Z) (results : list record) : list record :=
  match results with
  | [] => []
  | result :: rest =>
      if Boolean_opt pagination && count_is_first afterCursorModelCount pagination
      then filterResults_scan regex pagination afterCursorModelCount rest
      else if Boolean_opt pagination && Boolean_opt (after_of pagination)
              && Z.eqb afterCursorModelCount (-1)
      then
        if id_is (get "_id" result) pagination
        then filterResults_scan regex pagination (afterCursorModelCount + 1) rest
        else filterResults_scan regex pagination afterCursorModelCount rest
      else if some_value_matches regex result
      then
        result :: filterResults_scan regex pagination
                    (if Boolean_opt pagination
                     then afterCursorModelCount + 1
                     else afterCursorModelCount) rest
      else filterResults_scan regex pagination afterCursorModelCount rest
  end%Z.

(** [new RegExp(search, 'i')] comes first: on a pattern the runtime
    refuses, [filterResults] throws before it looks at a record. *)
Definition filterResults (results : list record) (search : string)
  (pagination : option PaginationParams) : outcome (list record) :=
  match RegExp search "i" with
  | None => Err SyntaxError
  | Some regex =>
      let afterCursorModelCount :=
        if Boolean_opt (after_of pagination) then (-1)%Z else 0%Z in
      Val (filterResults_scan regex pagination afterCursorModelCount results)
  end.

Open Scope js_scope.

Definition getTotalCount : M (option value) :=
  memo p_count store_count
    (let! self := get_this in
     let! aggregationPipelineNoPagination := slice (aggregationPipeline self) in
     if Boolean_str (search self) then
       let! results := Model_aggregate aggregationPipelineNoPagination in
       let! matches :=
         of_outcome (filterResults results (default "" (search self)) None) in
       ret (Some (VNum (Z.of_nat (length matches))))
     else
       push aggregationPipelineNoPagination (Count "count");;
       let! aggregationPipelineNoPagination :=
         filter_array (fun a => negb (String.eqb (stage_key a) "$project"))
           aggregationPipelineNoPagination in
       let! countResults := Model_aggregate aggregationPipelineNoPagination in
       match countResults with
       | first :: _ => ret (get "count" first)
       | [] => ret (Some (VNum 0))
       end).

Definition findCursorModel (id : N) : M record :=
  memo p_model store_model
    (let! self := get_this in
     let! aggregationPipelineFindOne := slice (aggregationPipeline self) in
     unshift aggregationPipelineFindOne (Match (CEq "_id" (VOid id)));;
     let! results := Model_aggregate aggregationPipelineFindOne in
     match results with
     | [] => throw (CursorNotFound id)
     | first :: _ => ret first
     end).

(** The [$or] list the page assembler builds for the boundary [after]. *)
Definition boundary_ors (s : SortParams) (cursorModel : record) (after : N) : list cond :=
  let orderDirection :=
    match sort_order s with Some Asc => OpGt | _ => OpLt end in
  match sort_configured s with
  | Some (f, _) => [CCmp f orderDirection (get f cursorModel)]
  | None => []
  end ++ [CCmp "_id" OpGt (Some (VOid after))].

Definition aggregationAddPagination (aggregationPipeline : loc) (after : option N)
  : M loc :=
  let! aggregationPipelineWithPagination := slice aggregationPipeline in
  (match after with
   | Some after =>
       let! cursorModel := findCursorModel after in
       let! self := get_this in
       push aggregationPipelineWithPagination
         (Match (COr (boundary_ors (sort self) cursorModel after)))
   | None => ret tt
   end);;
  let! self := get_this in
  modify_this (set_perPage (page_size (pagination self)));;
  let! self := get_this in
  push aggregationPipelineWithPagination (Limit (default 0%N (perPage self)));;
  ret aggregationPipelineWithPagination.

Definition getEdges : M (list Edge) :=
  memo p_edge store_edge
    (let! self := get_this in
     let! docs :=
       if negb (Boolean_str (search self)) then
         let! aggregationPipelineWithPagination :=
           aggregationAddPagination (aggregationPipeline self)
             (pg_after (pagination self)) in
         Model_aggregate aggregationPipelineWithPagination
       else
         let! docs := Model_aggregate (aggregationPipeline self) in
         of_outcome (filterResults docs (default "" (search self))
                       (Some (pagination self))) in
     ret (map (fun doc => {| node := doc; cursor := get "_id" doc |}) docs)).

Definition getEndCursor : M (option value) :=
  memo p_cursor store_cursor
    (let! edges := getEdges in
     match last edges with
     | None => ret None
     | Some e => ret (cursor e)
     end).

(** [cursor._id]: reading a property of [null] or [undefined] throws; an
    ObjectId answers itself (mongoose defines that getter on ObjectId);
    a number or a string has no such property. *)
Definition read_id (cursor : option value) : M (option N) :=
  match cursor with
  | None => throw TypeError
  | Some (VOid n) => ret (Some n)
  | Some _ => ret None
  end.

Definition hasNextPage : M bool :=
  memo p_nextPage store_nextPage
    (let! endCursor := getEndCursor in
     let! after := read_id endCursor in
     let! self := get_this in
     let! aggregationPipelineWithNextPage :=
       aggregationAddPagination (aggregationPipeline self) after in
     let! docs := Model_aggregate aggregationPipelineWithNextPage in
     ret (Nat.ltb 0 (length docs))).

Close Scope js_scope.

End Engine.

(* ===================================================================== *)
(** ** The regular expressions of the scenarios *)

(** The scenarios search for plain patterns: ASCII characters, none of
    them one of [\ ^ $ . * + ? ( ) [ ] { } |], which regular expressions
    read as syntax.  [new RegExp(pattern, flags)] then finds the pattern
    as a substring; under the flag [i] an ASCII letter of the pattern
    finds the same letter in either case and nothing else.  Of the
    other patterns the scenarios use ["("], which the runtime refuses;
    this constructor refuses every pattern that is not plain. *)
Definition lower (c : ascii) : ascii :=
  let n := nat_of_ascii c in
  if Nat.leb 65 n && Nat.leb n 90 then ascii_of_nat (n + 32) else c.

Fixpoint lower_string (s : string) : string :=
  match s with
  | EmptyString => EmptyString
  | String c rest => String (lower c) (lower_string rest)
  end.

Fixpoint occurs (pat s : string) : bool :=
  String.prefix pat s
  || match s with
     | EmptyString => false
     | String _ rest => occurs pat rest
     end.

Definition plain_char (c : ascii) : bool :=
  Nat.ltb (nat_of_ascii c) 128
  && negb (existsb (Ascii.eqb c)
             (list_ascii_of_string "\^$.*+?()[]{}|")).

Definition literal_RegExp : RegExp_constructor :=
  fun pattern flags =>
    if all_chars plain_char pattern then
      if String.eqb flags "i"
      then Some (fun s => occurs (lower_string pattern) (lower_string s))
      else if String.eqb flags ""
      then Some (fun s => occurs pattern s)
      else None
    else None.

(* ===================================================================== *)
(** ** Vocabulary of the properties *)

(** In the words of the spec: a record matches the pattern when one of
    its field values, stringified, does. *)
Definition matching (regex : string -> bool) (r : record) : bool :=
  existsb (fun field => regex (String_of (snd field))) r.

(** In the words of the spec: the id of the record equals [after].  For
    an [after] given as the string of the 24 digits of the identifier
    [a], that is an ObjectId with the identifier [a], the string itself,
    or a number the string reads as; for an [after] given as an ObjectId
    object, the string and the number only: an ObjectId of a record is
    another object. *)
Inductive equals_after (a : N) : cursor_form -> record -> Prop :=
| equal_ObjectId r :
    get "_id" r = Some (VOid a) -> equals_after a AsString r
| equal_string form r :
    get "_id" r = Some (VStr (hex24 a)) -> equals_after a form r
| equal_number form r z :
    get "_id" r = Some (VNum z) ->
    Number_of_Z z = ToNumber_hex (hex24 a) ->
    ToNumber_hex (hex24 a) <> NaN ->
    equals_after a form r.

(** The page bound of the scan: the first [first] records, all of them
    when [pagination.first] is absent. *)
Definition take_page (first : option N) (docs : list record) : list record :=
  match first with
  | Some n => firstn (N.to_nat n) docs
  | None => docs
  end.


(** The instance's base pipeline is an allocated array. *)
Definition wf (w : world) : Prop :=
  (aggregationPipeline (this w) < length (heap w))%nat.

(** The contents of the instance's base pipeline. *)
Definition base_of (w : world) : list stage :=
  heap w !!! aggregationPipeline (this w).

(** The client of the pagination law: [n] pages, a new engine for each,
    [after] set to the end cursor of the page before.  The walk stops at
    a page without an end cursor. *)
Definition with_after (params : Params) (after : option N) : Params :=
  {| baseAggregationPipeline := baseAggregationPipeline params;
     params_pagination :=
       {| pg_first := pg_first (params_pagination params); pg_after := after;
          pg_after_form := pg_after_form (params_pagination params) |};
     params_sort := params_sort params;
     params_filters := params_filters params;
     params_search := params_search params |}.

Fixpoint fetch_pages (RegExp : RegExp_constructor) (Model : Model)
  (params : Params) (h : list (list stage)) (n : nat) (after : option N)
  : outcome (list Edge) :=
  match n with
  | O => Val []
  | S n' =>
      let w := constructor Model (with_after params after) h in
      match getEdges RegExp w with
      | (Err e, _) => Err e
      | (Val edges, w1) =>
          match getEndCursor RegExp w1 with
          | (Err e, _) => Err e
          | (Val (Some (VOid endCursor)), _) =>
              match fetch_pages RegExp Model params h n' (Some endCursor) with
              | Val more => Val (edges ++ more)
              | Err e => Err e
              end
          | (Val _, _) => Val edges
          end
      end
  end.

(** The boundary, in the words of the tie-break policy: a record is
    beyond the boundary when its sort value is strictly past the
    boundary's (smaller under a descending sort, greater under an
    ascending one), or when it is tied with the boundary on the sort key
    and has a strictly greater identifier. *)
Definition strictly_past (s : SortParams) (boundary doc : record) : bool :=
  match sort_configured s with
  | Some (f, o) =>
      match get f doc, get f boundary with
      | Some x, Some y =>
          match o, value_compare x y with
          | Desc, Lt => true
          | Asc, Gt => true
          | _, _ => false
          end
      | _, _ => false
      end
  | None => false
  end.

Definition tied (s : SortParams) (boundary doc : record) : bool :=
  match sort_configured s with
  | Some (f, _) =>
      match get f doc, get f boundary with
      | Some x, Some y => value_eqb x y
      | None, None => true
      | _, _ => false
      end
  | None => true
  end.

Definition greater_id (doc : record) (after : N) : bool :=
  match get "_id" doc with
  | Some x => match value_compare x (VOid after) with Gt => true | _ => false end
  | None => false
  end.

Definition beyond (s : SortParams) (boundary : record) (after : N) (doc : record) : bool :=
  strictly_past s boundary doc || (tied s boundary doc && greater_id doc after).

(** The query of the cursor resolver, and what it finds. *)
Definition cursor_query (w : world) (id : N) : list stage :=
  Match (CEq "_id" (VOid id)) :: base_of w.

Definition cursor_outcome (w : world) (id : N) : outcome record :=
  match aggregate (Model_ (this w)) (cursor_query w id) with
  | [] => Err (CursorNotFound id)
  | first :: _ => Val first
  end.

(** The boundary record is known: already resolved on this instance, or
    found by the cursor query. *)
Definition resolves (w : world) (after : N) (cursorModel : record) : Prop :=
  p_model (promises (this w)) = Some (Val cursorModel)
  \/ (p_model (promises (this w)) = None
      /\ cursor_outcome w after = Val cursorModel).

(** The pipeline of a page past the boundary [after]. *)
Definition page_pipeline (w : world) (cursorModel : record) (after : N) : list stage :=
  base_of w
  ++ [Match (COr (boundary_ors (sort (this w)) cursorModel after));
      Limit (page_size (pagination (this w)))].

(** The pipeline of a first page. *)
Definition first_page_pipeline (w : world) : list stage :=
  base_of w ++ [Limit (page_size (pagination (this w)))].

(** *** What each operation answers

    The answers of the four operations as functions of what the instance
    was constructed with: the model, the base pipeline, the search
    pattern, the pagination and the sort. *)

Section Answers.

Variable RegExp : RegExp_constructor.

Definition edges_of (docs : list record) : list Edge :=
  map (fun doc => {| node := doc; cursor := get "_id" doc |}) docs.

Definition edges_result (w : world) : outcome (list Edge) :=
  if Boolean_str (search (this w)) then
    match filterResults RegExp (aggregate (Model_ (this w)) (base_of w))
            (default "" (search (this w))) (Some (pagination (this w))) with
    | Val docs => Val (edges_of docs)
    | Err e => Err e
    end
  else
    match pg_after (pagination (this w)) with
    | None => Val (edges_of (aggregate (Model_ (this w)) (first_page_pipeline w)))
    | Some a =>
        match cursor_outcome w a with
        | Val cm =>
            Val (edges_of (aggregate (Model_ (this w)) (page_pipeline w cm a)))
        | Err e => Err e
        end
    end.

Definition end_cursor_of (o : outcome (list Edge)) : outcome (option value) :=
  match o with
  | Val edges => Val (match last edges with Some e => cursor e | None => None end)
  | Err e => Err e
  end.

(** The instance resolves one cursor only: in native mode with
    [pagination.after] that cursor is [after], otherwise it is the end
    cursor [c] of the page. *)
Definition pinned_cursor (w : world) : option N :=
  if Boolean_str (search (this w)) then None else pg_after (pagination (this w)).

Definition boundary_record (w : world) (c : N) : outcome record :=
  match pinned_cursor w with
  | Some a => cursor_outcome w a
  | None => cursor_outcome w c
  end.

Definition next_result (w : world) : outcome bool :=
  match end_cursor_of (edges_result w) with
  | Err e => Err e
  | Val None => Err TypeError
  | Val (Some (VOid c)) =>
      match boundary_record w c with
      | Val cm =>
          Val (Nat.ltb 0 (length (aggregate (Model_ (this w)) (page_pipeline w cm c))))
      | Err e => Err e
      end
  | Val (Some _) =>
      Val (Nat.ltb 0 (length (aggregate (Model_ (this w)) (first_page_pipeline w))))
  end.

(** The count pipeline: the base pipeline and [$count], without the
    [$project] stages. *)
Definition strip_project (pipeline : list stage) : list stage :=
  List.filter (fun a => negb (String.eqb (stage_key a) "$project")) pipeline.

Definition count_result (w : world) : outcome (option value) :=
  if Boolean_str (search (this w)) then
    match filterResults RegExp (aggregate (Model_ (this w)) (base_of w))
            (default "" (search (this w))) None with
    | Val docs => Val (Some (VNum (Z.of_nat (length docs))))
    | Err e => Err e
    end
  else
    match aggregate (Model_ (this w)) (strip_project (base_of w ++ [Count "count"])) with
    | first :: _ => Val (get "count" first)
    | [] => Val (Some (VNum 0))
    end.

(** *** Instances in use *)

Inductive public_op := GetTotalCount | GetEdges | GetEndCursor | HasNextPage.

(** The world after a call of a public operation has settled. *)
Definition call (op : public_op) (w : world) : world :=
  match op with
  | GetTotalCount => snd (getTotalCount RegExp w)
  | GetEdges => snd (getEdges RegExp w)
  | GetEndCursor => snd (getEndCursor RegExp w)
  | HasNextPage => snd (hasNextPage RegExp w)
  end.

(** An instance in use: constructed over an existing base pipeline, then
    asked any operations in any order. *)
Inductive in_use : world -> Prop :=
| in_use_new Model params h :
    (baseAggregationPipeline params < length h)%nat ->
    in_use (constructor Model params h)
| in_use_call op w : in_use w -> in_use (call op w).

(** What the slots of an instance in use hold. *)
Record slots_ok (w : world) : Prop := {
  ok_wf : wf w;
  ok_model_pinned :
    forall a, pinned_cursor w = Some a ->
      p_model (promises (this w))
      = match p_edge (promises (this w)) with
        | Some _ => Some (cursor_outcome w a)
        | None => None
        end;
  ok_model_late :
    pinned_cursor w = None ->
    p_nextPage (promises (this w)) = None ->
    p_model (promises (this w)) = None;
  ok_count :
    forall o, p_count (promises (this w)) = Some o -> o = count_result w;
  ok_edge :
    forall o, p_edge (promises (this w)) = Some o -> o = edges_result w;
  ok_cursor :
    forall o, p_cursor (promises (this w)) = Some o ->
      p_edge (promises (this w)) <> None /\ o = end_cursor_of (edges_result w);
  ok_nextPage :
    forall o, p_nextPage (promises (this w)) = Some o ->
      p_cursor (promises (this w)) <> None /\ o = next_result w }.

End Answers.

(** A filled slot stays filled, with the same outcome. *)
Record keeps (p p' : Promises) : Prop := {
  keeps_count : forall o, p_count p = Some o -> p_count p' = Some o;
  keeps_model : forall o, p_model p = Some o -> p_model p' = Some o;
  keeps_edge : forall o, p_edge p = Some o -> p_edge p' = Some o;
  keeps_cursor : forall o, p_cursor p = Some o -> p_cursor p' = Some o;
  keeps_nextPage : forall o, p_nextPage p = Some o -> p_nextPage p' = Some o }.

(** The instance's configuration is the same in both worlds, and
    nothing allocated or logged in the first is lost in the second. *)
Record extends (w w' : world) : Prop := {
  ex_heap : heap w `prefix_of` heap w';
  ex_calls : calls w `prefix_of` calls w';
  ex_Model : Model_ (this w') = Model_ (this w);
  ex_pipeline : aggregationPipeline (this w') = aggregationPipeline (this w);
  ex_search : search (this w') = search (this w);
  ex_pagination : pagination (this w') = pagination (this w);
  ex_sort : sort (this w') = sort (this w) }.

(** ... and nothing settled is lost either. *)
Definition evolves (w w' : world) : Prop :=
  extends w w' /\ keeps (promises (this w)) (promises (this w')).

(** The stages the constructor appends to its copy of the base
    pipeline. *)
Definition constructed_stages (params : Params) : list stage :=
  map (fun filter => Match (CIn (filter_field filter) (filter_value filter)))
    (params_filters params)
  ++ match sort_configured (params_sort params) with
     | Some (f, o) => [Sort f o]
     | None => []
     end.

(** The answer of a public operation, and the answer its configuration
    determines. *)
Inductive answer :=
| TotalCount (o : outcome (option value))
| Edges (o : outcome (list Edge))
| EndCursor (o : outcome (option value))
| NextPage (o : outcome bool).

Definition ask (RegExp : RegExp_constructor) (op : public_op)
  (w : world) : answer :=
  match op with
  | GetTotalCount => TotalCount (fst (getTotalCount RegExp w))
  | GetEdges => Edges (fst (getEdges RegExp w))
  | GetEndCursor => EndCursor (fst (getEndCursor RegExp w))
  | HasNextPage => NextPage (fst (hasNextPage RegExp w))
  end.

Definition expected (RegExp : RegExp_constructor) (op : public_op)
  (w : world) : answer :=
  match op with
  | GetTotalCount => TotalCount (count_result RegExp w)
  | GetEdges => Edges (edges_result RegExp w)
  | GetEndCursor => EndCursor (end_cursor_of (edges_result RegExp w))
  | HasNextPage => NextPage (next_result RegExp w)
  end.

(** The slot a public operation memoizes in is filled. *)
Definition settled (op : public_op) (w : world) : Prop :=
  match op with
  | GetTotalCount => p_count (promises (this w)) <> None
  | GetEdges => p_edge (promises (this w)) <> None
  | GetEndCursor => p_cursor (promises (this w)) <> None
  | HasNextPage => p_nextPage (promises (this w)) <> None
  end.

(** Records in ascending order of their identifiers, all of them
    ObjectIds and no two equal. *)
Definition doc_id (doc : record) : option N :=
  match get "_id" doc with
  | Some (VOid i) => Some i
  | _ => None
  end.

Definition id_lt (a b : record) : Prop :=
  exists i j, doc_id a = Some i /\ doc_id b = Some j /\ (i < j)%N.

Definition ascending_ids (docs : list record) : Prop :=
  StronglySorted id_lt docs /\ Forall (fun d => doc_id d <> None) docs.

(** The boundary condition of an instance without a sort. *)
Definition past (a : N) (d : record) : bool :=
  Store.matches d (COr [CCmp "_id" OpGt (Some (VOid a))]).

(** The same construction parameters with another pagination. *)
Definition with_pagination (params : Params) (pagination : PaginationParams) : Params :=
  {| baseAggregationPipeline := baseAggregationPipeline params;
     params_pagination := pagination;
     params_sort := params_sort params;
     params_filters := params_filters params;
     params_search := params_search params |}.

(** The pipeline [getTotalCount] sends to the store. *)
Definition count_query (w : world) : list stage :=
  if Boolean_str (search (this w)) then base_of w
  else strip_project (base_of w ++ [Count "count"]).

(** The number of settled slots among those whose run queries the
    store: the count, the cursor record, the page and the next page. *)
Definition filled {A} (slot : option A) : nat :=
  match slot with Some _ => 1%nat | None => 0%nat end.

Definition settled_slots (p : Promises) : nat :=
  (filled (p_count p) + filled (p_model p) + filled (p_edge p)
   + filled (p_nextPage p))%nat.

(** From [w] to [w'] no more pipelines were sent than slots were
    settled. *)
Definition paid (w w' : world) : Prop :=
  (length (calls w') + settled_slots (promises (this w))
   <= length (calls w) + settled_slots (promises (this w')))%nat.

(** A sequence of calls, each settled before the next. *)
Definition run_calls (RegExp : RegExp_constructor)
  (ops : list public_op) (w : world) : world :=
  fold_left (fun w op => call RegExp op w) ops w.



(** The [$or] list of the boundary, case by case. *)
Definition boundary_disjunction (s : SortParams) (cursorModel : record) (after : N)
  : list cond :=
  match sort_configured s with
  | Some (f, Desc) =>
      [CCmp f OpLt (get f cursorModel); CCmp "_id" OpGt (Some (VOid after))]
  | Some (f, Asc) =>
      [CCmp f OpGt (get f cursorModel); CCmp "_id" OpGt (Some (VOid after))]
  | None => [CCmp "_id" OpGt (Some (VOid after))]
  end.

(** The instance [t] with other promises and another page size. *)
Definition this_with (pr : Promises) (pp : option N) (t : Pagination) : Pagination :=
  {| promises := pr; Model_ := Model_ t;
     aggregationPipeline := aggregationPipeline t; search := search t;
     pagination := pagination t; sort := sort t; perPage := pp |}.

(* ===================================================================== *)
(** ** The event loop: calls while a computation is in flight *)

Module Async.

(** The five memoized slots of [this.promises]. *)
Inductive slot := Count_ | Model_slot | Edge_ | Cursor_ | NextPage_.

Definition slot_eqb (a b : slot) : bool :=
  match a, b with
  | Count_, Count_ | Model_slot, Model_slot | Edge_, Edge_
  | Cursor_, Cursor_ | NextPage_, NextPage_ => true
  | _, _ => false
  end.

Definition pid := nat.

(** What a promise of the instance resolves to. *)
Inductive jsval :=
| JCount (count : option value)
| JModel (cursorModel : record)
| JEdges (edges : list Edge)
| JCursor (endCursor : option value)
| JBool (b : bool).

(** An async function between two suspensions.  Each [await] of the
    source is one constructor; the memoization idiom
    [if (!this.promises.x) this.promises.x = run(); return this.promises.x]
    is [CallMemo], which answers the promise in the slot. *)
Inductive task :=
| Finish (o : outcome jsval)
| AwaitStore (pipeline : list stage) (k : list record -> task)
| AwaitPromise (p : pid) (k : jsval -> task)
| CallMemo (s : slot) (id : option N) (k : pid -> task)
| SetPerPage (n : N) (k : task).

(** What the instance is constructed with: the model, the contents of
    its base pipeline, and the parameters. *)
Record config := {
  cfg_Model : Model;
  cfg_pipeline : list stage;
  cfg_search : option string;
  cfg_pagination : PaginationParams;
  cfg_sort : SortParams }.

Section Bodies.

Variable RegExp : RegExp_constructor.
Variable c : config.

Definition getTotalCount_run : task :=
  if Boolean_str (cfg_search c) then
    AwaitStore (cfg_pipeline c) (fun results =>
      match filterResults RegExp results (default "" (cfg_search c)) None with
      | Val docs => Finish (Val (JCount (Some (VNum (Z.of_nat (length docs))))))
      | Err e => Finish (Err e)
      end)
  else
    AwaitStore (strip_project (cfg_pipeline c ++ [Count "count"]))
      (fun countResults =>
         match countResults with
         | first :: _ => Finish (Val (JCount (get "count" first)))
         | [] => Finish (Val (JCount (Some (VNum 0))))
         end).

Definition findCursorModel_run (id : N) : task :=
  AwaitStore (Match (CEq "_id" (VOid id)) :: cfg_pipeline c) (fun results =>
    match results with
    | [] => Finish (Err (CursorNotFound id))
    | first :: _ => Finish (Val (JModel first))
    end).

(** [await this.aggregationAddPagination(this.aggregationPipeline, after)],
    then [k] on the pipeline it returns. *)
Definition aggregationAddPagination_then (after : option N)
  (k : list stage -> task) : task :=
  match after with
  | Some after =>
      CallMemo Model_slot (Some after) (fun p =>
        AwaitPromise p (fun v =>
          match v with
          | JModel cursorModel =>
              SetPerPage (page_size (cfg_pagination c))
                (k (cfg_pipeline c
                    ++ [Match (COr (boundary_ors (cfg_sort c) cursorModel after));
                        Limit (page_size (cfg_pagination c))]))
          | _ => Finish (Err TypeError)
          end))
  | None =>
      SetPerPage (page_size (cfg_pagination c))
        (k (cfg_pipeline c ++ [Limit (page_size (cfg_pagination c))]))
  end.

Definition getEdges_run : task :=
  if negb (Boolean_str (cfg_search c)) then
    aggregationAddPagination_then (pg_after (cfg_pagination c)) (fun pipeline =>
      AwaitStore pipeline (fun docs => Finish (Val (JEdges (edges_of docs)))))
  else
    AwaitStore (cfg_pipeline c) (fun docs =>
      match filterResults RegExp docs (default "" (cfg_search c))
              (Some (cfg_pagination c)) with
      | Val docs => Finish (Val (JEdges (edges_of docs)))
      | Err e => Finish (Err e)
      end).

Definition getEndCursor_run : task :=
  CallMemo Edge_ None (fun p =>
    AwaitPromise p (fun v =>
      match v with
      | JEdges edges =>
          Finish (Val (JCursor (match last edges with
                                | Some e => cursor e
                                | None => None
                                end)))
      | _ => Finish (Err TypeError)
      end)).

Definition hasNextPage_run : task :=
  CallMemo Cursor_ None (fun p =>
    AwaitPromise p (fun v =>
      match v with
      | JCursor None => Finish (Err TypeError)
      | JCursor (Some endCursor) =>
          aggregationAddPagination_then
            (match endCursor with VOid n => Some n | _ => None end)
            (fun pipeline =>
               AwaitStore pipeline (fun docs =>
                 Finish (Val (JBool (Nat.ltb 0 (length docs))))))
      | _ => Finish (Err TypeError)
      end)).

(** The [run] of the method that memoizes in slot [s]. *)
Definition run_of (s : slot) (id : option N) : task :=
  match s with
  | Count_ => getTotalCount_run
  | Model_slot => findCursorModel_run (default 0%N id)
  | Edge_ => getEdges_run
  | Cursor_ => getEndCursor_run
  | NextPage_ => hasNextPage_run
  end.

(** The instance and the promises of the event loop. *)
Record machine := {
  slots : slot -> option pid;          (* this.promises *)
  per_page : option N;                 (* this.perPage *)
  pool : list (pid * task);            (* async functions in flight *)
  results : list (pid * outcome jsval);(* settled promises *)
  next_pid : pid;
  store_log : list (pid * list stage); (* calls of Model.aggregate, by issuer *)
  started : list (slot * pid) }.       (* runs started, with their promise *)

Definition init : machine :=
  {| slots := fun _ => None; per_page := None; pool := []; results := [];
     next_pid := 0; store_log := []; started := [] |}.

Fixpoint result_of (p : pid) (rs : list (pid * outcome jsval))
  : option (outcome jsval) :=
  match rs with
  | [] => None
  | (q, o) :: rest => if Nat.eqb q p then Some o else result_of p rest
  end.

(** The memoization idiom: the promise in the slot, started if the slot
    is empty. *)
Definition memo_call (s : slot) (id : option N) (m : machine) : pid * machine :=
  match slots m s with
  | Some p => (p, m)
  | None =>
      (next_pid m,
       {| slots := fun s' => if slot_eqb s' s then Some (next_pid m) else slots m s';
          per_page := per_page m;
          pool := pool m ++ [(next_pid m, run_of s id)];
          results := results m;
          next_pid := S (next_pid m);
          store_log := store_log m;
          started := started m ++ [(s, next_pid m)] |})
  end.

Definition set_pool (pl : list (pid * task)) (m : machine) : machine :=
  {| slots := slots m; per_page := per_page m; pool := pl; results := results m;
     next_pid := next_pid m; store_log := store_log m; started := started m |}.

(** A promise settles once. *)
Definition settle (p : pid) (o : outcome jsval) (m : machine) : machine :=
  {| slots := slots m; per_page := per_page m; pool := pool m;
     results := match result_of p (results m) with
                | Some _ => results m
                | None => results m ++ [(p, o)]
                end;
     next_pid := next_pid m; store_log := store_log m; started := started m |}.

(** One turn of the async function of promise [p], which is at position
    [i] of the pool in the state [t]: up to its next suspension. *)
Definition turn (i : nat) (p : pid) (t : task) (m : machine) : machine :=
  match t with
  | Finish o => settle p o (set_pool (delete i (pool m)) m)
  | AwaitStore pipeline k =>
      {| slots := slots m; per_page := per_page m;
         pool := <[i := (p, k (aggregate (cfg_Model c) pipeline))]> (pool m);
         results := results m; next_pid := next_pid m;
         store_log := store_log m ++ [(p, pipeline)];
         started := started m |}
  | AwaitPromise q k =>
      match result_of q (results m) with
      | Some (Val v) => set_pool (<[i := (p, k v)]> (pool m)) m
      | Some (Err e) => set_pool (<[i := (p, Finish (Err e))]> (pool m)) m
      | None => m
      end
  | CallMemo s id k =>
      let '(q, m') := memo_call s id m in
      set_pool (<[i := (p, k q)]> (pool m')) m'
  | SetPerPage n k =>
      {| slots := slots m; per_page := Some n;
         pool := <[i := (p, k)]> (pool m);
         results := results m; next_pid := next_pid m;
         store_log := store_log m; started := started m |}
  end.

Definition slot_of (op : public_op) : slot :=
  match op with
  | GetTotalCount => Count_
  | GetEdges => Edge_
  | GetEndCursor => Cursor_
  | HasNextPage => NextPage_
  end.

(** What happens to an instance: a caller calls a public operation, or
    the event loop resumes the async function at position [i]. *)
Inductive event :=
| Invoke (op : public_op)
| Resume (i : nat).

(** A public call answers the promise of its slot ([hasNextPage], an
    async function itself, answers a promise that adopts it). *)
Definition invoke (op : public_op) (m : machine) : pid * machine :=
  memo_call (slot_of op) None m.

Definition react (m : machine) (e : event) : machine :=
  match e with
  | Invoke op => snd (invoke op m)
  | Resume i =>
      match pool m !! i with
      | Some (p, t) => turn i p t m
      | None => m
      end
  end.

Definition run (events : list event) (m : machine) : machine :=
  fold_left react events m.

(** The promises of the runs started for a slot. *)
Definition runs_of (s : slot) (m : machine) : list pid :=
  map snd (List.filter (fun sp => slot_eqb (fst sp) s) (started m)).

End Bodies.

(** What a reaction never undoes: a promise in a slot, and the outcome
    of a settled promise. *)
Record grows (m m' : machine) : Prop := {
  g_slots : forall s p, slots m s = Some p -> slots m' s = Some p;
  g_results : forall p o,
      result_of p (results m) = Some o -> result_of p (results m') = Some o }.

(** The runs started are those of the promises in the slots, one for a
    slot at most; the functions in flight and the store calls are theirs. *)
Record sound (m : machine) : Prop := {
  runs_ok : forall s,
      runs_of s m = match slots m s with Some p => [p] | None => [] end;
  pool_ok : forall q t, In (q, t) (pool m) -> In q (map snd (started m));
  log_ok : forall q pipeline,
      In (q, pipeline) (store_log m) -> In q (map snd (started m)) }.

End Async.

(* ===================================================================== *)
(** ** The methods of the unnamed variant (part_000) *)

Module VariantEngine.

Section Engine.

(** The variant compiles its pattern without a flag: letter case
    counts. *)
Variable RegExp : RegExp_constructor.

(** [Number_gt s n]: whether [s > n] holds for the string [s] and the
    number [n], that is whether the number the JS runtime reads in [s]
    is greater than [n]. *)
Variable Number_gt : string -> N -> bool.

Definition filterResults (results : list record) (search : string)
  : outcome (list record) :=
  match RegExp search "" with
  | None => Err SyntaxError
  | Some regex => Val (List.filter (some_value_matches regex) results)
  end.

(** [count > this.perPage]: false when either side is [undefined]; a
    count that is not a number is read as one through its string. *)
Definition count_gt (count : option value) (perPage : option N) : bool :=
  match count, perPage with
  | Some (VNum c), Some n => Z.ltb (Z.of_N n) c
  | Some (VStr s), Some n => Number_gt s n
  | Some (VOid i), Some n => Number_gt (hex24 i) n
  | _, _ => false
  end.

Open Scope js_scope.

Definition getTotalCount : M (option value) :=
  memo p_count store_count
    (let! self := get_this in
     let! aggregationPipelineNoPagination := slice (aggregationPipeline self) in
     if Boolean_str (search self) then
       let! results := Model_aggregate aggregationPipelineNoPagination in
       let! matches :=
         of_outcome (filterResults results (default "" (search self))) in
       ret (Some (VNum (Z.of_nat (length matches))))
     else
       push aggregationPipelineNoPagination (Count "count");;
       let! countResults := Model_aggregate aggregationPipelineNoPagination in
       match countResults with
       | first :: _ => ret (get "count" first)
       | [] => ret (Some (VNum 0))
       end).

Definition findCursorModel (id : N) : M record :=
  memo p_model store_model
    (let! self := get_this in
     let! aggregationPipelineFindOne := slice (aggregationPipeline self) in
     push aggregationPipelineFindOne (Match (CEq "_id" (VOid id)));;
     let! results := Model_aggregate aggregationPipelineFindOne in
     match results with
     | [] => throw (CursorNotFound id)
     | first :: _ => ret first
     end).

(** The second parameter is not read: the boundary is
    [this.pagination.after]. *)
Definition aggregationAddPagination (aggregationPipeline : loc)
  (pagination_ : PaginationParams) : M loc :=
  let! aggregationPipelineWithPagination := slice aggregationPipeline in
  let! self := get_this in
  (match pg_after (pagination self) with
   | Some after =>
       let! cursorModel := findCursorModel after in
       let! self := get_this in
       push aggregationPipelineWithPagination
         (Match (COr (boundary_ors (sort self) cursorModel after)))
   | None => ret tt
   end);;
  let! self := get_this in
  modify_this (set_perPage (page_size (pagination self)));;
  let! self := get_this in
  push aggregationPipelineWithPagination (Limit (default 0%N (perPage self)));;
  ret aggregationPipelineWithPagination.

(** [this.find] is not a method of the class: in search mode the call
    [this.find(docs, this.search)] throws a TypeError. *)
Definition getEdges : M (list Edge) :=
  memo p_edge store_edge
    (let! self := get_this in
     let! aggregationPipelineWithPagination :=
       aggregationAddPagination (aggregationPipeline self) (pagination self) in
     let! docs := Model_aggregate aggregationPipelineWithPagination in
     let! self := get_this in
     let! docs :=
       if Boolean_str (search self) then throw TypeError else ret docs in
     ret (map (fun doc => {| node := doc; cursor := get "_id" doc |}) docs)).

Definition getEndCursor : M (option value) :=
  memo p_cursor store_cursor
    (let! edges := getEdges in
     match last edges with
     | None => ret None
     | Some e => ret (cursor e)
     end).

Definition hasNextPage : M bool :=
  memo p_nextPage store_nextPage
    (let! self := get_this in
     let! aggregationPipelineNoPerPage := slice (aggregationPipeline self) in
     push aggregationPipelineNoPerPage (Count "count");;
     let! countResults := Model_aggregate aggregationPipelineNoPerPage in
     let count :=
       match countResults with
       | first :: _ => get "count" first
       | [] => Some (VNum 0)
       end in
     let! self := get_this in
     ret (count_gt count (perPage self))).

Close Scope js_scope.

End Engine.

(** The stages the variant's constructor pushes onto the caller's array. *)
Definition constructed_stages (sort : SortParams) (filters : list Variant.Filter)
  : list stage :=
  map (fun filter =>
         Match (CEq (Variant.filter_field filter) (Variant.filter_value filter)))
    filters
  ++ match sort_configured sort with
     | Some (f, o) => [Sort f o]
     | None => []
     end.

End VariantEngine.

(* ===================================================================== *)
(** ** Scenarios *)

Module Scenario.

Definition doc (id : N) (score : Z) : record :=
  [("_id", VOid id); ("score", VNum score)].

Definition by_score_desc : SortParams :=
  {| sort_field := Some "score"; sort_order := Some Desc |}.

Definition no_sort : SortParams :=
  {| sort_field := None; sort_order := None |}.

(** A caller's heap: one empty base pipeline, at address 0. *)
Definition caller_heap : list (list stage) := [[]].

Definition params (first after : option N) (s : SortParams)
  (search : option string) : Params :=
  {| baseAggregationPipeline := 0%nat;
     params_pagination :=
       {| pg_first := first; pg_after := after; pg_after_form := AsString |};
     params_sort := s;
     params_filters := [];
     params_search := search |}.

(** Three records whose identifiers do not follow their scores. *)
Definition scores : list record := [doc 1 5; doc 2 3; doc 3 9].

(** An instance over [scores], sorted by descending score. *)
Definition scores_world (first after : option N) : world :=
  constructor (Store.model scores) (params first after by_score_desc None)
    caller_heap.

Definition first_page : world := scores_world (Some 1%N) None.
Definition second_page : world := scores_world (Some 1%N) (Some 1%N).

(** Two records; the higher score has the greater identifier. *)
Definition two_scores : list record := [doc 1 5; doc 2 9].

(** Three records in descending score order. *)
Definition falling : list record := [doc 1 9; doc 2 5; doc 3 3].

(** Twenty-six records that all contain the letter a. *)
Definition named (id : nat) : record :=
  [("_id", VOid (N.of_nat id)); ("name", VStr "ada")].
Definition many_named : list record := map named (seq 1 26).

(** A base pipeline that projects the score away, in a caller's heap,
    and a filter on the score. *)
Definition projecting_heap : list (list stage) := [[Project ["name"]]].
Definition scored (id : N) (name : string) (score : Z) : record :=
  [("_id", VOid id); ("name", VStr name); ("score", VNum score)].
Definition projected_params : Params :=
  {| baseAggregationPipeline := 0%nat;
     params_pagination :=
       {| pg_first := None; pg_after := None; pg_after_form := AsString |};
     params_sort := no_sort;
     params_filters := [{| filter_field := "score"; filter_value := [VNum 5] |}];
     params_search := None |}.

(** An instance over an empty collection. *)
Definition empty_world : world :=
  constructor (Store.model []) (params None None no_sort None) caller_heap.

(** A caller's heap with a base pipeline of one stage, and an instance
    constructed over it with a filter and a sort. *)
Definition busy_heap : list (list stage) := [[Limit 10]].
Definition busy_params : Params :=
  {| baseAggregationPipeline := 0%nat;
     params_pagination :=
       {| pg_first := Some 2%N; pg_after := None; pg_after_form := AsString |};
     params_sort := by_score_desc;
     params_filters := [{| filter_field := "score";
                           filter_value := [VNum 3; VNum 5] |}];
     params_search := None |}.

(** Five records in ascending order of identifier. *)
Definition five : list record := [doc 1 7; doc 2 7; doc 4 1; doc 6 9; doc 9 7].

(** The second page over [falling], as the event loop sees it, and a
    schedule: three calls at once, then eighty turns round the pool. *)
Definition falling_config : Async.config :=
  {| Async.cfg_Model := Store.model falling;
     Async.cfg_pipeline := [Sort "score" Desc];
     Async.cfg_search := None;
     Async.cfg_pagination :=
       {| pg_first := Some 2%N; pg_after := Some 1%N; pg_after_form := AsString |};
     Async.cfg_sort := by_score_desc |}.

(** What [new RegExp("AD", "i")] finds. *)
Definition contains_ad (s : string) : bool := occurs "ad" (lower_string s).

(** An instance in search mode over four named records. *)
Definition few_named : list record := [named 1; named 2; named 3; named 4].
Definition search_world (pattern : string) (first after : option N)
  (form : cursor_form) : world :=
  constructor (Store.model few_named)
    {| baseAggregationPipeline := 0%nat;
       params_pagination :=
         {| pg_first := first; pg_after := after; pg_after_form := form |};
       params_sort := no_sort;
       params_filters := [];
       params_search := Some pattern |}
    caller_heap.

(** An instance in search mode over [many_named]. *)
Definition searching (first after : option N) : world :=
  constructor (Store.model many_named) (params first after no_sort (Some "AD"))
    caller_heap.

(** Instances of the variant over [scores], on the caller's array at
    address 0: sorted by descending score, and in search mode. *)
Definition score_five : list Variant.Filter :=
  [{| Variant.filter_field := "score"; Variant.filter_value := VNum 5 |}].
Definition variant_world (first after : option N) : world :=
  Variant.constructor (Store.model scores) 0%nat
    {| pg_first := first; pg_after := after; pg_after_form := AsString |}
    by_score_desc [] None caller_heap.
Definition variant_searching (after : option N) : world :=
  Variant.constructor (Store.model scores) 0%nat
    {| pg_first := None; pg_after := after; pg_after_form := AsString |}
    no_sort [] (Some "5") caller_heap.

Definition busy_schedule : list Async.event :=
  [Async.Invoke HasNextPage; Async.Invoke GetEdges; Async.Invoke GetTotalCount]
  ++ concat (repeat [Async.Resume 4; Async.Resume 3; Async.Resume 2;
                     Async.Resume 1; Async.Resume 0] 16).

End Scenario.

(* ===================================================================== *)
(** * Properties *)

(* ===================================================================== *)
(** ** The client-side result filter *)

(** The 24 digits name one identifier. *)
Lemma read_hex_zeros k s : read_hex (zeros k ++ s)%string = read_hex s.
Proof.
  induction k as [|k IH]; [reflexivity|].
  cbn [zeros String.append]. unfold read_hex in *.
  cbn [HexadecimalString.NilEmpty.uint_of_string].
  destruct (HexadecimalString.NilEmpty.uint_of_string (zeros k ++ s)%string) as [d|];
    destruct (HexadecimalString.NilEmpty.uint_of_string s) as [d'|];
    cbn in *; try discriminate; try reflexivity; exact IH.
Qed.

Lemma read_hex24 n : read_hex (hex24 n) = Some n.
Proof.
  unfold hex24. rewrite read_hex_zeros. unfold read_hex.
  pose proof (HexadecimalN.Unsigned.of_to n) as Hn.
  remember (N.to_hex_uint n) as d eqn:E.
  assert (Hd : d = Hexadecimal.Nil
               \/ HexadecimalString.NilZero.string_of_uint d
                  = HexadecimalString.NilEmpty.string_of_uint d)
    by (destruct d; auto).
  destruct Hd as [-> | ->].
  - cbn in *. now rewrite <- Hn.
  - rewrite HexadecimalString.NilEmpty.usu. cbn. now rewrite Hn.
Qed.

Lemma hex24_inj n m : hex24 n = hex24 m -> n = m.
Proof.
  intros E. apply (f_equal read_hex) in E. rewrite !read_hex24 in E. now injection E.
Qed.

Lemma Number_eqb_eq x y : Number_eqb x y = true <-> x = y /\ y <> NaN.
Proof.
  destruct x as [a|s|], y as [b|t|]; cbn; split;
    try discriminate; try (intros [E Hn]; congruence).
  - intros H. apply Z.eqb_eq in H. now subst.
  - intros [E _]. injection E as ->. apply Z.eqb_refl.
  - intros H. apply Bool.eqb_prop in H. now subst.
  - intros [E _]. injection E as ->. apply Bool.eqb_reflx.
Qed.

Section ResultFilter.

Variable RegExp : RegExp_constructor.

(** The loop over the field values finds what the spec calls a match. *)
Lemma some_value_matches_matching regex r :
  some_value_matches regex r = matching regex r.
Proof.
  unfold some_value_matches, matching, Object_values.
  induction r as [|[k v] r IH]; [reflexivity|].
  cbn [map values_loop existsb snd].
  destruct (regex (String_of v)); [reflexivity | exact IH].
Qed.

(** The loose equality of the code holds for the records whose id the
    spec calls equal to [after]. *)
Lemma id_is_equals_after r first a form :
  id_is (get "_id" r)
    (Some {| pg_first := first; pg_after := Some a; pg_after_form := form |})
  = true
  <-> equals_after a form r.
Proof.
  unfold id_is. cbn [pg_after pg_after_form]. split.
  - intros H. destruct (get "_id" r) as [[z|s|n]|] eqn:E.
    + assert (Hn : Number_eqb (Number_of_Z z) (ToNumber_hex (hex24 a)) = true)
        by (destruct form; exact H).
      apply Number_eqb_eq in Hn as [Hn Hnan].
      now apply (equal_number a form r z).
    + assert (Hs : String.eqb s (hex24 a) = true) by (destruct form; exact H).
      apply String.eqb_eq in Hs. subst s. now apply equal_string.
    + destruct form; [|discriminate].
      cbn [loose_eq_string] in H. apply String.eqb_eq, hex24_inj in H. subst n.
      now apply equal_ObjectId.
    + destruct form; discriminate.
  - intros [r' E | form' r' E | form' r' z E Hn Hnan]; rewrite E.
    + cbn [loose_eq_string]. apply String.eqb_refl.
    + destruct form'; cbn [loose_eq_object loose_eq_string]; apply String.eqb_refl.
    + assert (Number_eqb (Number_of_Z z) (ToNumber_hex (hex24 a)) = true)
        by now apply Number_eqb_eq.
      destruct form'; assumption.
Qed.

Lemma id_is_not_equals_after r first a form :
  ~ equals_after a form r ->
  id_is (get "_id" r)
    (Some {| pg_first := first; pg_after := Some a; pg_after_form := form |})
  = false.
Proof.
  intros H. apply not_true_is_false. intros E. apply H.
  now apply (id_is_equals_after r first a form).
Qed.

Lemma not_equals_after r a form :
  id_is (get "_id" r)
    (Some {| pg_first := None; pg_after := Some a; pg_after_form := form |})
  = false ->
  ~ equals_after a form r.
Proof.
  intros H E. apply (id_is_equals_after r None a form) in E. congruence.
Qed.

Lemma count_is_first_skip p :
  count_is_first (-1) (Some p) = false.
Proof.
  unfold count_is_first. destruct (pg_first p) as [n|]; [|reflexivity].
  apply Z.eqb_neq. lia.
Qed.

(** While the boundary has not been met the scan drops every record. *)
Lemma scan_skipping regex p pre rest :
  pg_after p <> None ->
  Forall (fun r => id_is (get "_id" r) (Some p) = false) pre ->
  filterResults_scan regex (Some p) (-1) (pre ++ rest)
  = filterResults_scan regex (Some p) (-1) rest.
Proof.
  intros Ha. induction 1 as [|r pre Hr _ IH]; [reflexivity|].
  cbn [app filterResults_scan].
  rewrite count_is_first_skip. cbn [Boolean_opt after_of andb].
  destruct (pg_after p) as [a|]; [|contradiction]. cbn [Boolean_opt].
  change (Z.eqb (-1) (-1)) with true. cbn [andb]. rewrite Hr. exact IH.
Qed.

(** Past the boundary, with [seen] matches already taken, the scan takes
    matching records until the page is full. *)
Lemma scan_taking regex p n docs : forall seen : nat,
  pg_first p = Some n ->
  (seen <= N.to_nat n)%nat ->
  filterResults_scan regex (Some p) (Z.of_nat seen) docs
  = firstn (N.to_nat n - seen) (List.filter (matching regex) docs).
Proof.
  induction docs as [|r docs IH]; intros seen Hn Hle.
  - cbn. now rewrite firstn_nil.
  - cbn [filterResults_scan List.filter Boolean_opt andb count_is_first].
    rewrite Hn.
    destruct (Z.eqb_spec (Z.of_nat seen) (Z.of_N n)) as [E|E].
    + assert (N.to_nat n - seen = 0)%nat as -> by lia.
      rewrite IH by assumption.
      assert (N.to_nat n - seen = 0)%nat as -> by lia. reflexivity.
    + assert (Z.eqb (Z.of_nat seen) (-1) = false) as -> by (apply Z.eqb_neq; lia).
      rewrite andb_false_r, some_value_matches_matching.
      destruct (matching regex r).
      * replace (Z.of_nat seen + 1)%Z with (Z.of_nat (S seen)) by lia.
        rewrite IH by (assumption || lia).
        destruct (N.to_nat n - seen)%nat as [|k] eqn:Ek; [lia|].
        replace (N.to_nat n - S seen)%nat with k by lia. reflexivity.
      * apply IH; assumption.
Qed.

Lemma scan_unbounded regex p docs : forall seen : nat,
  pg_first p = None ->
  filterResults_scan regex (Some p) (Z.of_nat seen) docs
  = List.filter (matching regex) docs.
Proof.
  induction docs as [|r docs IH]; intros seen Hn; [reflexivity|].
  cbn [filterResults_scan List.filter Boolean_opt andb count_is_first].
  rewrite Hn.
  assert (Z.eqb (Z.of_nat seen) (-1) = false) as -> by (apply Z.eqb_neq; lia).
  rewrite andb_false_r, some_value_matches_matching.
  destruct (matching regex r).
  - replace (Z.of_nat seen + 1)%Z with (Z.of_nat (S seen)) by lia.
    now rewrite IH.
  - now apply IH.
Qed.

(** From a counter that is not the skip mark the scan takes a page. *)
Lemma scan_page regex p docs :
  filterResults_scan regex (Some p) 0 docs
  = take_page (pg_first p) (List.filter (matching regex) docs).
Proof.
  change 0%Z with (Z.of_nat 0).
  destruct (pg_first p) as [n|] eqn:Hn; cbn [take_page].
  - rewrite (scan_taking regex p n) by (assumption || lia). now rewrite Nat.sub_0_r.
  - now apply scan_unbounded.
Qed.

Lemma scan_no_pagination regex docs : forall count,
  filterResults_scan regex None count docs = List.filter (matching regex) docs.
Proof.
  induction docs as [|r docs IH]; intros count; [reflexivity|].
  cbn [filterResults_scan List.filter Boolean_opt andb].
  rewrite some_value_matches_matching.
  destruct (matching regex r); now rewrite IH.
Qed.

(** Without a pagination object the filter keeps exactly the matches. *)
Lemma filterResults_no_pagination docs search regex :
  RegExp search "i" = Some regex ->
  filterResults RegExp docs search None = Val (List.filter (matching regex) docs).
Proof.
  intros Hre. unfold filterResults. rewrite Hre. cbn [after_of Boolean_opt].
  now rewrite scan_no_pagination.
Qed.

(** On a pattern the runtime refuses the filter throws. *)
Lemma filterResults_refused docs search pagination :
  RegExp search "i" = None ->
  filterResults RegExp docs search pagination = Err SyntaxError.
Proof. intros Hre. unfold filterResults. now rewrite Hre. Qed.


End ResultFilter.

Module FilterExamples.
Import Scenario.



End FilterExamples.

(* ===================================================================== *)
(** ** The pagination law on concrete collections *)

Module Law.
Import Scenario.

(** C1.  Three pages of one record over [scores], sorted by descending
    score: the third page returns the first record again and the record
    with the lowest score is never returned, although the sorted base
    pipeline has three distinct records. *)
Theorem third_page_repeats_first :
  let M := Store.model scores in
  let p := params (Some 1%N) None by_score_desc None in
  fetch_pages literal_RegExp M p caller_heap 3 None
  = Val [ {| node := doc 3 9; cursor := Some (VOid 3) |};
          {| node := doc 1 5; cursor := Some (VOid 1) |};
          {| node := doc 3 9; cursor := Some (VOid 3) |} ]
  /\ firstn (3 * 1) (Store.execute scores (base_of (constructor M p caller_heap)))
     = [doc 3 9; doc 1 5; doc 2 3].
Proof. split; vm_compute; reflexivity. Qed.

(** C2.  The page holds every record of the sorted base pipeline, its end
    cursor is the last of them, and [hasNextPage] answers true. *)
Theorem hasNextPage_true_on_last_page :
  let M := Store.model two_scores in
  let w := constructor M (params (Some 2%N) None by_score_desc None) caller_heap in
  Store.execute two_scores (base_of w) = [doc 2 9; doc 1 5]
  /\ fst (getEdges literal_RegExp w)
     = Val [ {| node := doc 2 9; cursor := Some (VOid 2) |};
             {| node := doc 1 5; cursor := Some (VOid 1) |} ]
  /\ fst (getEndCursor literal_RegExp w) = Val (Some (VOid 1))
  /\ fst (hasNextPage literal_RegExp w) = Val true.
Proof. repeat split; vm_compute; reflexivity. Qed.

(** The cursor record is resolved once per instance: on a page fetched
    with [after], [hasNextPage] compares sort values with the record of
    [after], not with the record of the end cursor. *)
Lemma hasNextPage_uses_first_boundary :
  let M := Store.model falling in
  let w := constructor M (params (Some 2%N) (Some 1%N) by_score_desc None)
             caller_heap in
  fst (getEdges literal_RegExp w)
  = Val [ {| node := doc 2 5; cursor := Some (VOid 2) |};
          {| node := doc 3 3; cursor := Some (VOid 3) |} ]
  /\ Store.execute falling (base_of w) = [doc 1 9; doc 2 5; doc 3 3]
  /\ fst (hasNextPage literal_RegExp w) = Val true
  /\ last (calls (snd (hasNextPage literal_RegExp w)))
     = Some [ Sort "score" Desc;
              Match (COr [CCmp "score" OpLt (Some (VNum 9));
                          CCmp "_id" OpGt (Some (VOid 3))]);
              Limit 2 ].
Proof. repeat split; vm_compute; reflexivity. Qed.

(** C6.  In search mode without [pagination.first] the page is not cut
    at 25: all twenty-six matching records come back. *)
Theorem search_page_exceeds_default :
  let M := Store.model many_named in
  let p := params None None no_sort (Some "a") in
  page_size (params_pagination p) = 25%N
  /\ match fst (getEdges literal_RegExp (constructor M p caller_heap)) with
     | Val edges => length edges = 26%nat
     | Err _ => False
     end.
Proof. split; vm_compute; reflexivity. Qed.

End Law.

(* ===================================================================== *)
(** ** Arrays in the heap *)

Lemma alter_fresh (f : list stage -> list stage) (h : list (list stage)) x k :
  alter f (length h) (h ++ x :: k) = h ++ f x :: k.
Proof.
  rewrite <- (Nat.add_0_r (length h)) at 1. now rewrite alter_app_r.
Qed.

Lemma alter_fresh_next (f : list stage -> list stage) (h : list (list stage)) x y k :
  alter f (S (length h)) (h ++ x :: y :: k) = h ++ x :: f y :: k.
Proof.
  replace (S (length h)) with (length h + 1)%nat by lia.
  now rewrite alter_app_r.
Qed.

Lemma lookup_fresh (h : list (list stage)) x k :
  (h ++ x :: k) !!! length h = x.
Proof. now apply list_lookup_total_middle. Qed.

Lemma lookup_fresh_next (h : list (list stage)) x y k :
  (h ++ x :: y :: k) !!! S (length h) = y.
Proof.
  rewrite lookup_total_app_r by lia.
  replace (S (length h) - length h)%nat with 1%nat by lia. reflexivity.
Qed.

Lemma lookup_old (h k : list (list stage)) a :
  (a < length h)%nat -> (h ++ k) !!! a = h !!! a.
Proof. apply lookup_total_app_l. Qed.

Lemma length_alloc (h : list (list stage)) x :
  length (h ++ [x]) = S (length h).
Proof. rewrite length_app. simpl. lia. Qed.

Lemma app_alloc (h : list (list stage)) x k :
  (h ++ [x]) ++ k = h ++ x :: k.
Proof. now rewrite <- app_assoc. Qed.

Ltac heap_norm :=
  repeat (rewrite ?app_alloc, ?length_alloc, ?alter_fresh, ?alter_fresh_next,
            ?lookup_fresh, ?lookup_fresh_next;
          try rewrite !lookup_old by (unfold wf in *; simpl in *; lia)).

Ltac js_unfold :=
  cbv [memo bind ret throw of_outcome get_this modify_this slice push unshift filter_array
       Model_aggregate heap_slice heap_filter heap_push heap_unshift
       set_heap set_this];
  cbn [heap calls this].

(* ===================================================================== *)
(** ** The cursor resolver *)

Section Resolver.

Lemma findCursorModel_cached w id o :
  p_model (promises (this w)) = Some o ->
  findCursorModel id w = (o, w).
Proof. intros H. unfold findCursorModel, memo. now rewrite H. Qed.

Lemma findCursorModel_fresh w id :
  p_model (promises (this w)) = None ->
  findCursorModel id w
  = (cursor_outcome w id,
     {| heap := heap w ++ [cursor_query w id];
        calls := calls w ++ [cursor_query w id];
        this := set_promises (store_model (cursor_outcome w id) (promises (this w)))
                  (this w) |}).
Proof.
  intros H. unfold findCursorModel, cursor_outcome, cursor_query, base_of.
  js_unfold. rewrite H. heap_norm.
  destruct w as [h c t]; cbn [heap calls this].
  destruct (aggregate (Model_ t) _); reflexivity.
Qed.

End Resolver.

(* ===================================================================== *)
(** ** The page assembler *)

Section Assembler.

Lemma aggregationAddPagination_none w :
  wf w ->
  aggregationAddPagination (aggregationPipeline (this w)) None w
  = (Val (length (heap w)),
     {| heap := heap w ++ [first_page_pipeline w];
        calls := calls w;
        this := set_perPage (page_size (pagination (this w))) (this w) |}).
Proof.
  intros Hwf. unfold aggregationAddPagination, first_page_pipeline, base_of.
  js_unfold. cbn [perPage set_perPage default]. heap_norm. reflexivity.
Qed.

Lemma aggregationAddPagination_some w a :
  wf w ->
  aggregationAddPagination (aggregationPipeline (this w)) (Some a) w
  = match p_model (promises (this w)) with
    | Some (Val cm) =>
        (Val (length (heap w)),
         {| heap := heap w ++ [page_pipeline w cm a];
            calls := calls w;
            this := set_perPage (page_size (pagination (this w))) (this w) |})
    | Some (Err e) =>
        (Err e,
         {| heap := heap w ++ [base_of w]; calls := calls w; this := this w |})
    | None =>
        match cursor_outcome w a with
        | Val cm =>
            (Val (length (heap w)),
             {| heap := heap w ++ [page_pipeline w cm a; cursor_query w a];
                calls := calls w ++ [cursor_query w a];
                this := set_perPage (page_size (pagination (this w)))
                          (set_promises
                             (store_model (Val cm) (promises (this w)))
                             (this w)) |})
        | Err e =>
            (Err e,
             {| heap := heap w ++ [base_of w; cursor_query w a];
                calls := calls w ++ [cursor_query w a];
                this := set_promises
                          (store_model (Err e) (promises (this w)))
                          (this w) |})
        end
    end.
Proof.
  intros Hwf. unfold aggregationAddPagination.
  cbv [bind slice heap_slice set_heap]. cbn [heap calls this].
  destruct (p_model (promises (this w))) as [[cm|e]|] eqn:Hslot.
  - rewrite (findCursorModel_cached _ _ (Val cm)) by exact Hslot.
    unfold page_pipeline, base_of. js_unfold.
    cbn [perPage set_perPage default]. heap_norm.
    now rewrite <- app_assoc.
  - rewrite (findCursorModel_cached _ _ (Err e)) by exact Hslot.
    reflexivity.
  - rewrite findCursorModel_fresh by exact Hslot.
    assert (Hq : cursor_query
                   {| heap := heap w ++ [heap w !!! aggregationPipeline (this w)];
                      calls := calls w; this := this w |} a
                 = cursor_query w a).
    { unfold cursor_query, base_of. cbn [heap this]. now heap_norm. }
    assert (Ho : cursor_outcome
                   {| heap := heap w ++ [heap w !!! aggregationPipeline (this w)];
                      calls := calls w; this := this w |} a
                 = cursor_outcome w a).
    { unfold cursor_outcome. rewrite Hq. reflexivity. }
    rewrite Ho, Hq. cbn [heap calls this].
    destruct (cursor_outcome w a) as [cm|e].
    + unfold page_pipeline, base_of. js_unfold.
      cbn [sort set_promises pagination perPage set_perPage default].
      heap_norm. now rewrite <- app_assoc.
    + unfold base_of. heap_norm. reflexivity.
Qed.

End Assembler.

(* ===================================================================== *)
(** ** The boundary condition *)

Section Boundary.

Lemma sort_configured_order s f o :
  sort_configured s = Some (f, o) -> sort_order s = Some o.
Proof.
  unfold sort_configured.
  destruct (sort_field s) as [g|], (sort_order s) as [o'|]; try discriminate.
  destruct (String.eqb g ""); [discriminate|].
  intros H; injection H as _ ->. reflexivity.
Qed.

Lemma boundary_ors_cases s cm a :
  boundary_ors s cm a = boundary_disjunction s cm a.
Proof.
  unfold boundary_ors, boundary_disjunction.
  destruct (sort_configured s) as [[f o]|] eqn:E.
  - rewrite (sort_configured_order _ _ _ E). destruct o; reflexivity.
  - reflexivity.
Qed.

Lemma beyond_admitted s cm a doc :
  beyond s cm a doc = true ->
  Store.matches doc (COr (boundary_disjunction s cm a)) = true.
Proof.
  unfold beyond. intros H.
  apply orb_true_iff in H as [Hpast | Htie].
  - unfold strictly_past in Hpast. unfold boundary_disjunction.
    destruct (sort_configured s) as [[f o]|]; [|discriminate].
    destruct (get f doc) as [x|] eqn:Ex; [|discriminate].
    destruct (get f cm) as [y|] eqn:Ey; [|discriminate].
    destruct o; cbn [Store.matches existsb]; rewrite Ex;
      unfold Store.cmp_holds; destruct (value_compare x y);
      try discriminate; reflexivity.
  - apply andb_true_iff in Htie as [_ Hid].
    unfold greater_id in Hid.
    destruct (get "_id" doc) as [x|] eqn:Ex; [|discriminate].
    assert (Hlast : Store.matches doc (CCmp "_id" OpGt (Some (VOid a))) = true).
    { cbn [Store.matches]. rewrite Ex. unfold Store.cmp_holds.
      destruct (value_compare x (VOid a)); try discriminate; reflexivity. }
    unfold boundary_disjunction.
    destruct (sort_configured s) as [[f []]|];
      cbn [Store.matches existsb] in *; rewrite Hlast;
      rewrite ?orb_true_r; reflexivity.
Qed.

(** C3, as amended.  With a boundary [after] that resolves to the record
    [cm], the page assembler returns the base pipeline followed by exactly
    one [$match] stage and the limit; the stage is the disjunction
    (sort field < boundary value) or (_id > after) under a descending
    sort, (sort field > boundary value) or (_id > after) under an
    ascending one, and (_id > after) alone without a sort; and the
    disjunction admits every record beyond the boundary. *)
Theorem boundary_stage_appended w a cm :
  wf w ->
  resolves w a cm ->
  (exists l w',
      aggregationAddPagination (aggregationPipeline (this w)) (Some a) w
      = (Val l, w')
      /\ heap w' !!! l
         = base_of w
           ++ [Match (COr (boundary_disjunction (sort (this w)) cm a));
               Limit (page_size (pagination (this w)))])
  /\ (forall doc,
         beyond (sort (this w)) cm a doc = true ->
         Store.matches doc (COr (boundary_disjunction (sort (this w)) cm a)) = true).
Proof.
  intros Hwf Hres. split; [|intros doc; apply beyond_admitted].
  rewrite aggregationAddPagination_some by exact Hwf.
  destruct Hres as [Hslot | [Hslot Hout]]; rewrite Hslot.
  - eexists _, _. split; [reflexivity|]. cbn [heap].
    rewrite lookup_fresh. unfold page_pipeline.
    now rewrite boundary_ors_cases.
  - rewrite Hout. eexists _, _. split; [reflexivity|]. cbn [heap].
    rewrite lookup_fresh. unfold page_pipeline.
    now rewrite boundary_ors_cases.
Qed.

End Boundary.

Module BoundaryExamples.
Import Scenario.

(** Under a descending sort with the boundary at score 5 and id 1, the
    record with score 9 and id 3 comes before the boundary, and the
    disjunction admits it. *)
Lemma boundary_admits_record_before :
  Store.matches (doc 3 9) (COr (boundary_ors by_score_desc (doc 1 5) 1)) = true
  /\ beyond by_score_desc (doc 1 5) 1 (doc 3 9) = false.
Proof. split; vm_compute; reflexivity. Qed.

Lemma boundary_stage_appended_witness :
  (exists l w',
      aggregationAddPagination (aggregationPipeline (this second_page))
        (Some 1%N) second_page
      = (Val l, w')
      /\ heap w' !!! l
         = base_of second_page
           ++ [Match (COr (boundary_disjunction (sort (this second_page))
                             (doc 1 5) 1));
               Limit (page_size (pagination (this second_page)))])
  /\ Store.matches (doc 2 3)
       (COr (boundary_disjunction (sort (this second_page)) (doc 1 5) 1))
     = true.
Proof.
  destruct (boundary_stage_appended second_page 1%N (doc 1 5))
    as [Hstage Hadmits].
  - unfold wf. vm_compute. lia.
  - right. split; vm_compute; reflexivity.
  - split; [exact Hstage|]. apply Hadmits. vm_compute. reflexivity.
Defined.

End BoundaryExamples.

(* ===================================================================== *)
(** ** The four operations on an instance in use *)

Section Operations.

Variable RegExp : RegExp_constructor.

Lemma getEdges_fresh w :
  wf w ->
  p_edge (promises (this w)) = None ->
  p_model (promises (this w)) = None ->
  exists hx cx pp,
    getEdges RegExp w
    = (edges_result RegExp w,
       {| heap := heap w ++ hx;
          calls := calls w ++ cx;
          this := this_with
                    (store_edge (edges_result RegExp w)
                       (match pinned_cursor w with
                        | Some a => store_model (cursor_outcome w a) (promises (this w))
                        | None => promises (this w)
                        end))
                    pp (this w) |}).
Proof.
  intros Hwf He Hm.
  unfold getEdges, memo. rewrite He.
  unfold edges_result, pinned_cursor.
  cbv [bind get_this].
  destruct (Boolean_str (search (this w))) eqn:Hs; cbn [negb].
  - js_unfold. fold (base_of w).
    destruct (filterResults RegExp _ _ _) as [docs|e];
      exists [], [base_of w], (perPage (this w)); now rewrite app_nil_r.
  - destruct (pg_after (pagination (this w))) as [a|].
    + rewrite aggregationAddPagination_some by exact Hwf. rewrite Hm.
      destruct (cursor_outcome w a) as [cm|e].
      * js_unfold. heap_norm.
        eexists _, _, _. reflexivity.
      * eexists _, _, _. reflexivity.
    + rewrite aggregationAddPagination_none by exact Hwf.
      js_unfold. heap_norm.
      eexists _, _, _. reflexivity.
Qed.

Lemma getTotalCount_fresh w :
  wf w ->
  p_count (promises (this w)) = None ->
  exists hx cx,
    getTotalCount RegExp w
    = (count_result RegExp w,
       {| heap := heap w ++ hx;
          calls := calls w ++ cx;
          this := set_promises
                    (store_count (count_result RegExp w) (promises (this w)))
                    (this w) |}).
Proof.
  intros Hwf Hc.
  unfold getTotalCount, memo. rewrite Hc.
  unfold count_result, strip_project, base_of.
  cbv [bind get_this]. cbn [this].
  destruct (Boolean_str (search (this w))) eqn:Hs.
  - js_unfold. heap_norm.
    destruct (filterResults RegExp _ _ _) as [docs|e]; eexists _, _; reflexivity.
  - js_unfold. heap_norm.
    destruct (aggregate _ _); eexists _, _; reflexivity.
Qed.

Lemma keeps_refl p : keeps p p.
Proof. split; auto. Qed.

Lemma keeps_trans p1 p2 p3 : keeps p1 p2 -> keeps p2 p3 -> keeps p1 p3.
Proof. intros [] []. split; auto. Qed.

Lemma keeps_store_count p o : p_count p = None -> keeps p (store_count o p).
Proof. intros H. split; cbn; auto. rewrite H. discriminate. Qed.

Lemma keeps_store_model p o : p_model p = None -> keeps p (store_model o p).
Proof. intros H. split; cbn; auto. rewrite H. discriminate. Qed.

Lemma keeps_store_edge p o : p_edge p = None -> keeps p (store_edge o p).
Proof. intros H. split; cbn; auto. rewrite H. discriminate. Qed.

Lemma keeps_store_cursor p o : p_cursor p = None -> keeps p (store_cursor o p).
Proof. intros H. split; cbn; auto. rewrite H. discriminate. Qed.

Lemma keeps_store_nextPage p o : p_nextPage p = None -> keeps p (store_nextPage o p).
Proof. intros H. split; cbn; auto. rewrite H. discriminate. Qed.

Lemma extends_refl w : extends w w.
Proof. split; reflexivity. Qed.

Lemma extends_trans w1 w2 w3 : extends w1 w2 -> extends w2 w3 -> extends w1 w3.
Proof.
  intros [h1 c1 m1 p1 s1 g1 o1] [h2 c2 m2 p2 s2 g2 o2].
  split; try congruence; etransitivity; eassumption.
Qed.

Lemma extends_base w w' : wf w -> extends w w' -> wf w' /\ base_of w' = base_of w.
Proof.
  intros Hwf [[k Hk] _ _ Hp _ _ _]. unfold wf, base_of in *.
  rewrite Hp, Hk. split.
  - rewrite length_app. lia.
  - now apply lookup_old.
Qed.

Lemma extends_update w hx cx pr pp :
  extends w {| heap := heap w ++ hx; calls := calls w ++ cx;
               this := this_with pr pp (this w) |}.
Proof. split; try reflexivity; now apply prefix_app_r. Qed.

Lemma evolves_refl w : evolves w w.
Proof. split; [apply extends_refl | apply keeps_refl]. Qed.

Lemma evolves_trans w1 w2 w3 : evolves w1 w2 -> evolves w2 w3 -> evolves w1 w3.
Proof.
  intros [e1 k1] [e2 k2].
  split; [eapply extends_trans | eapply keeps_trans]; eassumption.
Qed.

Lemma evolves_update w hx cx pr pp :
  keeps (promises (this w)) pr ->
  evolves w {| heap := heap w ++ hx; calls := calls w ++ cx;
               this := this_with pr pp (this w) |}.
Proof. intros Hk. split; [apply extends_update | exact Hk]. Qed.

(** The answers only depend on the configuration. *)
Lemma answers_stable w w' :
  wf w -> extends w w' ->
  (forall a, cursor_outcome w' a = cursor_outcome w a)
  /\ (forall cm a, page_pipeline w' cm a = page_pipeline w cm a)
  /\ first_page_pipeline w' = first_page_pipeline w
  /\ pinned_cursor w' = pinned_cursor w
  /\ edges_result RegExp w' = edges_result RegExp w
  /\ next_result RegExp w' = next_result RegExp w
  /\ count_result RegExp w' = count_result RegExp w.
Proof.
  intros Hwf Hev. destruct (extends_base _ _ Hwf Hev) as [_ Hb].
  destruct Hev as [_ _ Hm Hp Hs Hg Ho].
  assert (Hco : forall a, cursor_outcome w' a = cursor_outcome w a).
  { intros a. unfold cursor_outcome, cursor_query. now rewrite Hb, Hm. }
  assert (Hpp : forall cm a, page_pipeline w' cm a = page_pipeline w cm a).
  { intros cm a. unfold page_pipeline. now rewrite Hb, Ho, Hg. }
  assert (Hfp : first_page_pipeline w' = first_page_pipeline w).
  { unfold first_page_pipeline. now rewrite Hb, Hg. }
  assert (Hpc : pinned_cursor w' = pinned_cursor w).
  { unfold pinned_cursor. now rewrite Hs, Hg. }
  assert (Her : edges_result RegExp w' = edges_result RegExp w).
  { unfold edges_result. rewrite Hs, Hg, Hm, Hb, Hfp.
    destruct (Boolean_str (search (this w))); [reflexivity|].
    destruct (pg_after (pagination (this w))) as [a|]; [|reflexivity].
    rewrite Hco. destruct (cursor_outcome w a); [|reflexivity].
    now rewrite Hpp. }
  repeat split; try assumption.
  - unfold next_result, boundary_record. rewrite Her, Hpc, Hm, Hfp.
    destruct (end_cursor_of (edges_result RegExp w)) as [[[z|s|c]|]|e];
      try reflexivity.
    destruct (pinned_cursor w) as [a|]; rewrite Hco;
      (destruct (cursor_outcome w _); [now rewrite Hpp | reflexivity]).
  - unfold count_result. now rewrite Hs, Hm, Hb.
Qed.

Lemma slots_ok_update w hx cx pr pp :
  wf w ->
  (forall a, pinned_cursor w = Some a ->
     p_model pr = match p_edge pr with
                  | Some _ => Some (cursor_outcome w a)
                  | None => None
                  end) ->
  (pinned_cursor w = None -> p_nextPage pr = None -> p_model pr = None) ->
  (forall o, p_count pr = Some o -> o = count_result RegExp w) ->
  (forall o, p_edge pr = Some o -> o = edges_result RegExp w) ->
  (forall o, p_cursor pr = Some o ->
     p_edge pr <> None /\ o = end_cursor_of (edges_result RegExp w)) ->
  (forall o, p_nextPage pr = Some o ->
     p_cursor pr <> None /\ o = next_result RegExp w) ->
  slots_ok RegExp
    {| heap := heap w ++ hx; calls := calls w ++ cx;
       this := this_with pr pp (this w) |}.
Proof.
  intros Hwf H1 H2 H3 H4 H5 H6.
  pose proof (extends_update w hx cx pr pp) as Hev.
  destruct (answers_stable _ _ Hwf Hev) as (Hco & _ & _ & Hpc & Her & Hnr & Hcr).
  destruct (extends_base _ _ Hwf Hev) as [Hwf' _].
  split; rewrite ?Hpc, ?Her, ?Hnr, ?Hcr; cbn [this this_with promises];
    try assumption.
  intros a Ha. rewrite Hco. now apply H1.
Qed.

(** A slot above an empty slot is empty. *)
Lemma cursor_empty w :
  slots_ok RegExp w ->
  p_edge (promises (this w)) = None -> p_cursor (promises (this w)) = None.
Proof.
  intros Hok He. destruct (p_cursor (promises (this w))) as [o|] eqn:E; [|reflexivity].
  destruct (ok_cursor _ _ Hok o E) as [Hne _]. contradiction.
Qed.

Lemma nextPage_empty w :
  slots_ok RegExp w ->
  p_cursor (promises (this w)) = None -> p_nextPage (promises (this w)) = None.
Proof.
  intros Hok He. destruct (p_nextPage (promises (this w))) as [o|] eqn:E; [|reflexivity].
  destruct (ok_nextPage _ _ Hok o E) as [Hne _]. contradiction.
Qed.

Lemma model_empty w :
  slots_ok RegExp w ->
  p_edge (promises (this w)) = None -> p_model (promises (this w)) = None.
Proof.
  intros Hok He. destruct (pinned_cursor w) as [a|] eqn:Hp.
  - rewrite (ok_model_pinned _ _ Hok a Hp), He. reflexivity.
  - apply (ok_model_late _ _ Hok Hp). now apply nextPage_empty, cursor_empty.
Qed.

Lemma getTotalCount_spec w :
  slots_ok RegExp w ->
  exists w',
    getTotalCount RegExp w = (count_result RegExp w, w')
    /\ slots_ok RegExp w' /\ evolves w w'
    /\ p_count (promises (this w')) = Some (count_result RegExp w).
Proof.
  intros Hok. pose proof (ok_wf _ _ Hok) as Hwf.
  destruct (p_count (promises (this w))) as [o|] eqn:Hslot.
  - exists w. unfold getTotalCount, memo. rewrite Hslot.
    rewrite <- (ok_count _ _ Hok o Hslot). auto using evolves_refl.
  - destruct (getTotalCount_fresh w Hwf Hslot) as (hx & cx & ->).
    eexists. split; [reflexivity|]. split; [|split].
    + apply (slots_ok_update w hx cx _ (perPage (this w))); cbn; try assumption;
        try apply Hok.
      intros o [= <-]. reflexivity.
    + apply (evolves_update w hx cx _ (perPage (this w))).
      now apply keeps_store_count.
    + reflexivity.
Qed.

Lemma getEdges_spec w :
  slots_ok RegExp w ->
  exists w',
    getEdges RegExp w = (edges_result RegExp w, w')
    /\ slots_ok RegExp w' /\ evolves w w'
    /\ p_edge (promises (this w')) = Some (edges_result RegExp w)
    /\ p_cursor (promises (this w')) = p_cursor (promises (this w))
    /\ p_nextPage (promises (this w')) = p_nextPage (promises (this w)).
Proof.
  intros Hok. pose proof (ok_wf _ _ Hok) as Hwf.
  destruct (p_edge (promises (this w))) as [o|] eqn:Hslot.
  - exists w. unfold getEdges, memo. rewrite Hslot.
    rewrite <- (ok_edge _ _ Hok o Hslot). auto 6 using evolves_refl.
  - pose proof (model_empty _ Hok Hslot) as Hm.
    pose proof (cursor_empty _ Hok Hslot) as Hc.
    pose proof (nextPage_empty _ Hok Hc) as Hn.
    destruct (getEdges_fresh w Hwf Hslot Hm) as (hx & cx & pp & ->).
    eexists. split; [reflexivity|].
    split; [|split].
    2:{ apply evolves_update. eapply keeps_trans; [|apply keeps_store_edge].
        - destruct (pinned_cursor w); [now apply keeps_store_model | apply keeps_refl].
        - destruct (pinned_cursor w); exact Hslot. }
    + apply slots_ok_update; try assumption.
      * intros a Ha. rewrite Ha. reflexivity.
      * intros Hp _. rewrite Hp. exact Hm.
      * destruct (pinned_cursor w); cbn; apply Hok.
      * intros o. destruct (pinned_cursor w); cbn; intros [= <-]; reflexivity.
      * intros o. destruct (pinned_cursor w); cbn; rewrite Hc; discriminate.
      * intros o. destruct (pinned_cursor w); cbn; rewrite Hn; discriminate.
    + cbn. destruct (pinned_cursor w); cbn; auto.
Qed.

Lemma store_as_update w pr :
  set_this (set_promises pr (this w)) w
  = {| heap := heap w ++ []; calls := calls w ++ [];
       this := this_with pr (perPage (this w)) (this w) |}.
Proof. rewrite !app_nil_r. reflexivity. Qed.

Lemma getEndCursor_spec w :
  slots_ok RegExp w ->
  exists w',
    getEndCursor RegExp w = (end_cursor_of (edges_result RegExp w), w')
    /\ slots_ok RegExp w' /\ evolves w w'
    /\ p_cursor (promises (this w'))
       = Some (end_cursor_of (edges_result RegExp w))
    /\ p_nextPage (promises (this w')) = p_nextPage (promises (this w)).
Proof.
  intros Hok. pose proof (ok_wf _ _ Hok) as Hwf.
  destruct (p_cursor (promises (this w))) as [o|] eqn:Hslot.
  - exists w. unfold getEndCursor, memo. rewrite Hslot.
    destruct (ok_cursor _ _ Hok o Hslot) as [_ <-]. auto 6 using evolves_refl.
  - pose proof (nextPage_empty _ Hok Hslot) as Hn.
    destruct (getEdges_spec w Hok) as (w1 & E & Hok1 & Hev & He & Hc & Hn1).
    pose proof (ok_wf _ _ Hok1) as Hwf1.
    destruct (answers_stable _ _ Hwf (proj1 Hev)) as (Hco & _ & _ & Hpc & Her & Hnr & Hcr).
    set (o := end_cursor_of (edges_result RegExp w)).
    exists (set_this (set_promises (store_cursor o (promises (this w1))) (this w1)) w1).
    split.
    { unfold getEndCursor, memo. rewrite Hslot. cbv [bind]. rewrite E.
      subst o. destruct (edges_result RegExp w) as [edges|e]; cbn [end_cursor_of].
      - destruct (last edges); reflexivity.
      - reflexivity. }
    split; [|split].
    + rewrite store_as_update. apply slots_ok_update; try assumption; cbn.
      * apply Hok1.
      * rewrite Hn1, Hn. intros Hp _. now apply (ok_model_late _ _ Hok1 Hp); rewrite Hn1.
      * apply Hok1.
      * apply Hok1.
      * intros o' [= <-]. rewrite He, Her. split; [discriminate|reflexivity].
      * intros o'. rewrite Hn1, Hn. discriminate.
    + eapply evolves_trans; [exact Hev|]. rewrite store_as_update.
      apply evolves_update, keeps_store_cursor. now rewrite Hc.
    + cbn. auto.
Qed.


Lemma slots_ok_next w hx cx pm pp o :
  slots_ok RegExp w ->
  p_cursor (promises (this w)) <> None ->
  o = next_result RegExp w ->
  pm = promises (this w)
  \/ (pinned_cursor w = None /\ p_model (promises (this w)) = None
      /\ exists x, pm = store_model x (promises (this w))) ->
  slots_ok RegExp
    {| heap := heap w ++ hx; calls := calls w ++ cx;
       this := this_with (store_nextPage o pm) pp (this w) |}.
Proof.
  intros Hok Hc -> Hpm. pose proof (ok_wf _ _ Hok) as Hwf.
  apply slots_ok_update; try assumption; cbn.
  - intros a Ha. destruct Hpm as [-> | [Hp _]]; [now apply Hok | congruence].
  - discriminate.
  - destruct Hpm as [-> | (_ & _ & x & ->)]; apply Hok.
  - destruct Hpm as [-> | (_ & _ & x & ->)]; apply Hok.
  - destruct Hpm as [-> | (_ & _ & x & ->)]; apply Hok.
  - intros o [= <-]. split; [|reflexivity].
    destruct Hpm as [-> | (_ & _ & x & ->)]; exact Hc.
Qed.

Lemma hasNextPage_spec w :
  slots_ok RegExp w ->
  exists w',
    hasNextPage RegExp w = (next_result RegExp w, w')
    /\ slots_ok RegExp w' /\ evolves w w'
    /\ p_nextPage (promises (this w')) = Some (next_result RegExp w).
Proof.
  intros Hok. pose proof (ok_wf _ _ Hok) as Hwf.
  destruct (p_nextPage (promises (this w))) as [o|] eqn:Hslot.
  - exists w. unfold hasNextPage, memo. rewrite Hslot.
    destruct (ok_nextPage _ _ Hok o Hslot) as [_ <-]. auto 6 using evolves_refl.
  - destruct (getEndCursor_spec w Hok) as (w1 & E & Hok1 & Hev & Hc & Hn1).
    pose proof (ok_wf _ _ Hok1) as Hwf1.
    destruct (answers_stable _ _ Hwf (proj1 Hev)) as (_ & _ & _ & _ & Her & Hnr & _).
    rewrite Hslot in Hn1.
    assert (Hedge : p_edge (promises (this w1)) <> None).
    { apply (ok_cursor _ _ Hok1 _ Hc). }
    assert (Hcur : p_cursor (promises (this w1)) <> None) by (rewrite Hc; discriminate).
    unfold hasNextPage, memo. rewrite Hslot. cbv [bind]. rewrite E.
    rewrite <- Hnr, <- Her. clear E Hc Her Hnr.
    assert (Hfin : forall hx cx pm pp,
      pm = promises (this w1)
      \/ (pinned_cursor w1 = None /\ p_model (promises (this w1)) = None
          /\ exists x, pm = store_model x (promises (this w1))) ->
      let w' := {| heap := heap w1 ++ hx; calls := calls w1 ++ cx;
                   this := this_with (store_nextPage (next_result RegExp w1) pm)
                             pp (this w1) |} in
      slots_ok RegExp w' /\ evolves w w'
      /\ p_nextPage (promises (this w')) = Some (next_result RegExp w1)).
    { intros hx cx pm pp Hpm w'. split; [|split].
      - now apply slots_ok_next.
      - eapply evolves_trans; [exact Hev | apply evolves_update].
        eapply keeps_trans; [|apply keeps_store_nextPage].
        + destruct Hpm as [-> | (_ & Hm & x & ->)];
            [apply keeps_refl | now apply keeps_store_model].
        + destruct Hpm as [-> | (_ & _ & x & ->)]; exact Hn1.
      - reflexivity. }
    unfold next_result, boundary_record in *.
    destruct (end_cursor_of (edges_result RegExp w1)) as [[[z|s|c]|]|e] eqn:Hoc;
      rewrite ?Hoc in Hfin.
    + (* a number: no [_id] property, a first page is probed *)
      cbn [read_id]. cbv [ret get_this].
      rewrite aggregationAddPagination_none by exact Hwf1.
      js_unfold. heap_norm. eexists. split; [reflexivity|].
      apply (Hfin [_] [_] _ _). now left.
    + cbn [read_id]. cbv [ret get_this].
      rewrite aggregationAddPagination_none by exact Hwf1.
      js_unfold. heap_norm. eexists. split; [reflexivity|].
      apply (Hfin [_] [_] _ _). now left.
    + (* an identifier: the page past it is probed *)
      cbn [read_id]. cbv [ret get_this].
      rewrite aggregationAddPagination_some by exact Hwf1.
      destruct (pinned_cursor w1) as [a|] eqn:Hpin.
      * rewrite (ok_model_pinned _ _ Hok1 a Hpin).
        destruct (p_edge (promises (this w1))); [|contradiction].
        destruct (cursor_outcome w1 a) as [cm|e].
        -- js_unfold. heap_norm. eexists. split; [reflexivity|].
           apply (Hfin [_] [_] _ _). now left.
        -- rewrite store_as_update. eexists. split; [reflexivity|].
           cbn [heap calls this]. rewrite <- !app_assoc.
           apply (Hfin _ _ _ _). now left.
      * pose proof (ok_model_late _ _ Hok1 Hpin Hn1) as Hm. rewrite Hm.
        destruct (cursor_outcome w1 c) as [cm|e].
        -- js_unfold. heap_norm. eexists. split; [reflexivity|].
           apply (Hfin [_; _] [_; _] _ _). right. eauto.
        -- rewrite store_as_update. eexists. split; [reflexivity|].
           cbn [heap calls this]. rewrite <- !app_assoc.
           apply (Hfin _ _ _ _). right. eauto.
    + cbn [read_id]. cbv [throw]. rewrite store_as_update.
      eexists. split; [reflexivity|]. apply (Hfin [] [] _ _). now left.
    + rewrite store_as_update.
      eexists. split; [reflexivity|]. apply (Hfin [] [] _ _). now left.
Qed.

End Operations.

(* ===================================================================== *)
(** ** Construction, and instances in use *)

Section InUse.

Variable RegExp : RegExp_constructor.

Lemma push_filters (l : list (list stage)) x (filters : list Filter) :
  fold_left
    (fun h filter =>
       heap_push (length l)
         (Match (CIn (filter_field filter) (filter_value filter))) h)
    filters (l ++ [x])
  = l ++ [x ++ map (fun filter =>
                      Match (CIn (filter_field filter) (filter_value filter)))
                filters].
Proof.
  revert x. induction filters as [|f filters IH]; intros x; cbn [fold_left map].
  - now rewrite app_nil_r.
  - unfold heap_push at 2. rewrite alter_fresh, IH, <- app_assoc. reflexivity.
Qed.

Lemma constructor_world Model params h :
  constructor Model params h
  = {| heap := h ++ [h !!! baseAggregationPipeline params ++ constructed_stages params];
       calls := [];
       this := {| promises := no_promises;
                  Model_ := Model;
                  aggregationPipeline := length h;
                  search := params_search params;
                  pagination := params_pagination params;
                  sort := params_sort params;
                  perPage := None |} |}.
Proof.
  unfold constructor, heap_slice, constructed_stages. rewrite push_filters.
  destruct (sort_configured (params_sort params)) as [[f o]|].
  - unfold heap_push. rewrite alter_fresh, <- app_assoc. reflexivity.
  - now rewrite app_nil_r.
Qed.

Lemma constructor_slots_ok Model params h :
  slots_ok RegExp (constructor Model params h).
Proof.
  rewrite constructor_world. split; cbn; try discriminate; try reflexivity.
  unfold wf. cbn. rewrite length_app. cbn. lia.
Qed.

Lemma call_spec op w :
  slots_ok RegExp w ->
  ask RegExp op w = expected RegExp op w
  /\ slots_ok RegExp (call RegExp op w)
  /\ evolves w (call RegExp op w)
  /\ settled op (call RegExp op w).
Proof.
  intros Hok. destruct op; cbn [ask expected call settled].
  - destruct (getTotalCount_spec _ w Hok) as (w' & E & Hok' & Hev & Hc).
    rewrite E. cbn [fst snd]. split; [reflexivity|].
    split; [exact Hok'|]. split; [exact Hev|]. rewrite Hc. discriminate.
  - destruct (getEdges_spec _ w Hok) as (w' & E & Hok' & Hev & He & _).
    rewrite E. cbn [fst snd]. split; [reflexivity|].
    split; [exact Hok'|]. split; [exact Hev|]. rewrite He. discriminate.
  - destruct (getEndCursor_spec _ w Hok) as (w' & E & Hok' & Hev & Hc & _).
    rewrite E. cbn [fst snd]. split; [reflexivity|].
    split; [exact Hok'|]. split; [exact Hev|]. rewrite Hc. discriminate.
  - destruct (hasNextPage_spec _ w Hok) as (w' & E & Hok' & Hev & Hn).
    rewrite E. cbn [fst snd]. split; [reflexivity|].
    split; [exact Hok'|]. split; [exact Hev|]. rewrite Hn. discriminate.
Qed.

Lemma in_use_slots_ok w : in_use RegExp w -> slots_ok RegExp w.
Proof.
  induction 1 as [Model params h Hb | op w _ IH].
  - apply constructor_slots_ok.
  - now apply call_spec.
Qed.

(** Every call on an instance in use answers what the configuration
    determines, whatever was asked before. *)
Lemma in_use_answers w op :
  in_use RegExp w -> ask RegExp op w = expected RegExp op w.
Proof. intros H. now apply call_spec, in_use_slots_ok. Qed.

End InUse.

(* ===================================================================== *)
(** ** The base pipeline is never mutated *)

Section Frame.

Variable RegExp : RegExp_constructor.

Lemma run_calls_in_use ops w :
  in_use RegExp w -> in_use RegExp (run_calls RegExp ops w).
Proof.
  revert w. induction ops as [|op ops IH]; intros w Hw; [exact Hw|].
  cbn [run_calls fold_left]. apply IH. now constructor.
Qed.

Lemma run_calls_evolves ops w :
  in_use RegExp w -> evolves w (run_calls RegExp ops w).
Proof.
  revert w. induction ops as [|op ops IH]; intros w Hw; [apply evolves_refl|].
  cbn [run_calls fold_left]. eapply evolves_trans.
  - now apply (call_spec RegExp op w), in_use_slots_ok.
  - apply IH. now constructor.
Qed.

(** C8.  The constructor copies the caller's array: every array of the
    caller, the input array among them, has the same contents after the
    construction and any sequence of calls of the four operations; the
    instance's base pipeline is a new array which holds the input
    stages, then the filter stages and the sort stage, and holds exactly
    that after any sequence of calls. *)
Theorem base_pipeline_frame Model params (h : list (list stage)) ops :
  (baseAggregationPipeline params < length h)%nat ->
  (forall a, (a < length h)%nat ->
     heap (run_calls RegExp ops (constructor Model params h)) !!! a = h !!! a)
  /\ aggregationPipeline (this (constructor Model params h)) = length h
  /\ aggregationPipeline
       (this (run_calls RegExp ops (constructor Model params h)))
     = length h
  /\ base_of (run_calls RegExp ops (constructor Model params h))
     = h !!! baseAggregationPipeline params ++ constructed_stages params.
Proof.
  intros Hb.
  assert (Hin : in_use RegExp (constructor Model params h)) by now constructor.
  destruct (run_calls_evolves ops _ Hin) as [Hex _].
  pose proof (in_use_slots_ok _ _ Hin) as Hok.
  destruct (extends_base _ _ (ok_wf _ _ Hok) Hex) as [_ Hbase].
  pose proof (ex_pipeline _ _ Hex) as Hp.
  destruct (ex_heap _ _ Hex) as [k Hk].
  assert (Hh : heap (constructor Model params h)
               = h ++ [h !!! baseAggregationPipeline params
                       ++ constructed_stages params])
    by now rewrite constructor_world.
  assert (Ha0 : aggregationPipeline (this (constructor Model params h)) = length h)
    by now rewrite constructor_world.
  split; [|split; [|split]].
  - intros a Ha. rewrite Hk, Hh, <- app_assoc. now apply lookup_old.
  - exact Ha0.
  - now rewrite Hp.
  - rewrite Hbase. unfold base_of. rewrite Hh, Ha0. apply lookup_fresh.
Qed.

End Frame.

(** The variant's constructor does not copy: the instance's pipeline is
    the caller's array, and the array has the sort stage pushed onto it. *)
Lemma constructor_aliases_input Model base pagination sort filters search h :
  aggregationPipeline
    (this (Variant.constructor Model base pagination sort filters search h))
  = base.
Proof. reflexivity. Qed.

Lemma constructor_mutates_input :
  heap (Variant.constructor (Store.model Scenario.scores) 0
          {| pg_first := None; pg_after := None;
             pg_after_form := AsString |} Scenario.by_score_desc []
          None Scenario.busy_heap) !!! 0%nat
  = [Limit 10; Sort "score" Desc].
Proof. reflexivity. Qed.

(* ===================================================================== *)
(** ** Answers of an instance in use *)

Section Answering.

Variable RegExp : RegExp_constructor.

Lemma run_calls_answers ops w op :
  in_use RegExp w ->
  ask RegExp op (run_calls RegExp ops w) = expected RegExp op w.
Proof.
  intros Hw.
  rewrite in_use_answers by now apply run_calls_in_use.
  destruct (run_calls_evolves RegExp ops w Hw) as [Hex _].
  destruct (answers_stable RegExp _ _
              (ok_wf _ _ (in_use_slots_ok _ _ Hw)) Hex)
    as (_ & _ & _ & _ & Her & Hnr & Hcr).
  destruct op; cbn [expected]; congruence.
Qed.

(** C10.  On an instance whose page is empty the end cursor is null and
    [hasNextPage] does not answer false: it is rejected with a TypeError,
    at the first call and at every later one, and the rejection is what
    its slot holds. *)
Theorem hasNextPage_rejects_on_empty_page w :
  in_use RegExp w ->
  fst (getEdges RegExp w) = Val [] ->
  fst (getEndCursor RegExp w) = Val None
  /\ (forall ops,
        fst (hasNextPage RegExp (run_calls RegExp ops w)) = Err TypeError)
  /\ p_nextPage (promises (this (call RegExp HasNextPage w)))
     = Some (Err TypeError).
Proof.
  intros Hw Hempty.
  pose proof (in_use_answers RegExp w GetEdges Hw) as He.
  cbn [ask expected] in He. rewrite Hempty in He. injection He as He.
  assert (Hnext : next_result RegExp w = Err TypeError).
  { unfold next_result. rewrite <- He. reflexivity. }
  split; [|split].
  - pose proof (in_use_answers RegExp w GetEndCursor Hw) as Hc.
    cbn [ask expected] in Hc. injection Hc as ->. now rewrite <- He.
  - intros ops.
    pose proof (run_calls_answers ops w HasNextPage Hw) as Hn.
    cbn [ask expected] in Hn. injection Hn as ->. exact Hnext.
  - destruct (hasNextPage_spec RegExp w (in_use_slots_ok _ _ Hw))
      as (w' & E & _ & _ & Hslot).
    cbn [call]. rewrite E. cbn [snd]. now rewrite Hslot, Hnext.
Qed.

(** Once asked, an operation is settled for good: whatever is called
    afterwards, asking again gives the same answer and changes nothing,
    so nothing more is sent to the store. *)
Lemma settled_call op w :
  settled op w -> call RegExp op w = w.
Proof.
  destruct op; cbn [settled call];
    [ unfold getTotalCount | unfold getEdges | unfold getEndCursor
    | unfold hasNextPage ];
    unfold memo;
    match goal with |- ?s <> None -> _ => destruct s end;
    intros H; try reflexivity; now contradiction H.
Qed.

Lemma settled_keeps op w w' :
  evolves w w' -> settled op w -> settled op w'.
Proof.
  intros [_ Hk]. destruct op; cbn [settled]; intros Hs.
  - destruct (p_count (promises (this w))) as [o|] eqn:E; [|contradiction].
    rewrite (keeps_count _ _ Hk o E). discriminate.
  - destruct (p_edge (promises (this w))) as [o|] eqn:E; [|contradiction].
    rewrite (keeps_edge _ _ Hk o E). discriminate.
  - destruct (p_cursor (promises (this w))) as [o|] eqn:E; [|contradiction].
    rewrite (keeps_cursor _ _ Hk o E). discriminate.
  - destruct (p_nextPage (promises (this w))) as [o|] eqn:E; [|contradiction].
    rewrite (keeps_nextPage _ _ Hk o E). discriminate.
Qed.

Lemma asked_again w op ops :
  in_use RegExp w ->
  ask RegExp op (run_calls RegExp ops (call RegExp op w))
  = ask RegExp op w
  /\ call RegExp op (run_calls RegExp ops (call RegExp op w))
     = run_calls RegExp ops (call RegExp op w).
Proof.
  intros Hw. pose proof (in_use_slots_ok _ _ Hw) as Hok.
  assert (Hw1 : in_use RegExp (call RegExp op w)) by now constructor.
  destruct (call_spec RegExp op w Hok) as (Ha & Hok1 & Hev & Hs).
  split.
  - rewrite run_calls_answers by exact Hw1. rewrite Ha.
    destruct (answers_stable RegExp _ _ (ok_wf _ _ Hok) (proj1 Hev))
      as (_ & _ & _ & _ & Her & Hnr & Hcr).
    destruct op; cbn [expected]; congruence.
  - apply settled_call.
    eapply settled_keeps; [|exact Hs]. now apply run_calls_evolves.
Qed.

End Answering.

(* ===================================================================== *)
(** ** The pagination law without a sort *)

Section LawWithoutSort.

Variable RegExp : RegExp_constructor.

Lemma doc_id_get d i : doc_id d = Some i -> get "_id" d = Some (VOid i).
Proof.
  unfold doc_id. destruct (get "_id" d) as [[z|s|n]|]; try discriminate.
  now intros [= ->].
Qed.

Lemma past_spec d i a : doc_id d = Some i -> past a d = (a <? i)%N.
Proof.
  intros H. unfold past. cbn [Store.matches existsb].
  rewrite (doc_id_get d i H). unfold Store.cmp_holds. cbn [value_compare].
  rewrite orb_false_r. rewrite N.ltb_compare, (N.compare_antisym i a).
  destruct (N.compare i a); reflexivity.
Qed.

Lemma sorted_middle (pre : list record) b suf :
  StronglySorted id_lt (pre ++ b :: suf) ->
  Forall (fun d => id_lt d b) pre /\ Forall (id_lt b) suf.
Proof.
  induction pre as [|d pre IH]; cbn; intros H.
  - apply StronglySorted_inv in H as [_ H]. split; [constructor | exact H].
  - apply StronglySorted_inv in H as [Hs Hd].
    destruct (IH Hs) as [Hpre Hsuf]. split; [|exact Hsuf].
    constructor; [|exact Hpre].
    rewrite List.Forall_forall in Hd. apply Hd. apply in_app_iff. right. now left.
Qed.

(** Past the identifier of [b] lie exactly the records after [b]. *)
Lemma past_boundary pre b suf a :
  StronglySorted id_lt (pre ++ b :: suf) ->
  doc_id b = Some a ->
  List.filter (past a) (pre ++ b :: suf) = suf.
Proof.
  intros Hs Hb. destruct (sorted_middle pre b suf Hs) as [Hpre Hsuf].
  rewrite List.filter_app. cbn [List.filter].
  assert (List.filter (past a) pre = []) as ->.
  { clear Hs. induction Hpre as [|d pre (i & j & Hi & Hj & Hlt) _ IH]; [reflexivity|].
    cbn [List.filter]. rewrite (past_spec d i a Hi).
    assert (j = a) as -> by congruence.
    destruct (N.ltb_spec a i); [lia | exact IH]. }
  rewrite (past_spec b a a Hb), N.ltb_irrefl. cbn [app].
  clear Hs. induction Hsuf as [|d suf (i & j & Hi & Hj & Hlt) _ IH]; [reflexivity|].
  cbn [List.filter]. rewrite (past_spec d j a Hj).
  assert (i = a) as -> by congruence.
  destruct (N.ltb_spec a j); [now rewrite IH | lia].
Qed.


Variable collection : list record.
Variable params : Params.
Variable h : list (list stage).

Hypothesis base_allocated : (baseAggregationPipeline params < length h)%nat.
Hypothesis native : Boolean_str (params_search params) = false.
Hypothesis unsorted : sort_configured (params_sort params) = None.

Let base := h !!! baseAggregationPipeline params ++ constructed_stages params.
Let rs := Store.execute collection base.
Let n := N.to_nat (page_size (params_pagination params)).
Let engine (after : option N) : world :=
  constructor (Store.model collection) (with_after params after) h.

Hypothesis ascending : ascending_ids rs.
Hypothesis resolvable :
  forall d i, In d rs -> doc_id d = Some i ->
    Store.execute collection (Match (CEq "_id" (VOid i)) :: base) <> [].

Lemma page_size_positive p : (0 < N.to_nat (page_size p))%nat.
Proof. unfold page_size. destruct (pg_first p) as [[|q]|]; lia. Qed.

Lemma engine_in_use after : in_use RegExp (engine after).
Proof. unfold engine. now constructor. Qed.

Lemma engine_base after : base_of (engine after) = base.
Proof.
  unfold engine, base_of. rewrite constructor_world.
  cbn [heap this aggregationPipeline]. now rewrite lookup_fresh.
Qed.

Lemma engine_this after :
  this (engine after)
  = {| promises := no_promises;
       Model_ := Store.model collection;
       aggregationPipeline := length h;
       search := params_search params;
       pagination := {| pg_first := pg_first (params_pagination params);
                        pg_after := after;
                        pg_after_form := pg_after_form (params_pagination params) |};
       sort := params_sort params;
       perPage := None |}.
Proof. unfold engine. now rewrite constructor_world. Qed.

Lemma execute_app pipeline stages :
  Store.execute collection (pipeline ++ stages)
  = fold_left Store.run_stage stages (Store.execute collection pipeline).
Proof. unfold Store.execute. apply fold_left_app. Qed.

Lemma engine_first_page :
  edges_result RegExp (engine None) = Val (edges_of (firstn n rs)).
Proof.
  unfold edges_result, first_page_pipeline. rewrite engine_base, engine_this.
  cbn [search pagination Model_ pg_after aggregate Store.model].
  rewrite native, execute_app. reflexivity.
Qed.

Lemma engine_next_page pre b suf a :
  rs = pre ++ b :: suf ->
  doc_id b = Some a ->
  edges_result RegExp (engine (Some a)) = Val (edges_of (firstn n suf)).
Proof.
  intros Hrs Hb.
  unfold edges_result, cursor_outcome, cursor_query, page_pipeline.
  rewrite engine_base, engine_this.
  cbn [search pagination Model_ sort pg_after pg_first aggregate Store.model].
  rewrite native.
  destruct (Store.execute collection (Match (CEq "_id" (VOid a)) :: base))
    as [|cm found] eqn:Hfound.
  { exfalso. apply (resolvable b a); [|exact Hb|exact Hfound].
    rewrite Hrs. apply in_app_iff. right. now left. }
  unfold boundary_ors. rewrite unsorted, execute_app. cbn [app fold_left Store.run_stage].
  fold rs. fold (past a).
  rewrite Hrs, past_boundary; [reflexivity| |exact Hb].
  rewrite <- Hrs. apply ascending.
Qed.

(** One page of the client's walk. *)
Lemma fetch_pages_step k after :
  fetch_pages RegExp (Store.model collection) params h (S k) after
  = match edges_result RegExp (engine after) with
    | Err e => Err e
    | Val edges =>
        match end_cursor_of (Val edges) with
        | Err e => Err e
        | Val (Some (VOid endCursor)) =>
            match fetch_pages RegExp (Store.model collection) params h k
                    (Some endCursor) with
            | Val more => Val (edges ++ more)
            | Err e => Err e
            end
        | Val _ => Val edges
        end
    end.
Proof.
  cbn [fetch_pages]. fold (engine after).
  pose proof (in_use_slots_ok _ _ (engine_in_use after)) as Hok.
  destruct (getEdges_spec RegExp _ Hok) as (w1 & E & Hok1 & Hev & _).
  rewrite E.
  destruct (getEndCursor_spec RegExp _ Hok1) as (w2 & E2 & _).
  destruct (answers_stable RegExp _ _ (ok_wf _ _ Hok) (proj1 Hev))
    as (_ & _ & _ & _ & Her & _).
  rewrite Her in E2.
  destruct (edges_result RegExp (engine after)) as [edges|e]; [|reflexivity].
  rewrite E2. reflexivity.
Qed.

Lemma last_edge (page : list record) :
  end_cursor_of (Val (edges_of page))
  = Val (match last page with Some d => get "_id" d | None => None end).
Proof.
  unfold end_cursor_of, edges_of.
  change (map ?f page) with (f <$> page). rewrite fmap_last.
  destruct (last page); reflexivity.
Qed.

Lemma walk k : forall pre suf after,
  rs = pre ++ suf ->
  match after with
  | None => pre = []
  | Some a => exists pre' b, pre = pre' ++ [b] /\ doc_id b = Some a
  end ->
  fetch_pages RegExp (Store.model collection) params h k after
  = Val (edges_of (firstn (k * n) suf)).
Proof.
  induction k as [|k IH]; intros pre suf after Hrs Hafter; [reflexivity|].
  rewrite fetch_pages_step.
  assert (Hpage : edges_result RegExp (engine after)
                  = Val (edges_of (firstn n suf))).
  { destruct after as [a|].
    - destruct Hafter as (pre' & b & -> & Hb).
      apply (engine_next_page pre' b suf a); [|exact Hb].
      now rewrite Hrs, <- app_assoc.
    - subst pre. cbn [app] in Hrs. rewrite <- Hrs. apply engine_first_page. }
  rewrite Hpage, last_edge.
  destruct (last (firstn n suf)) as [b|] eqn:Hlast.
  - apply last_Some in Hlast as [page' Hpage'].
    assert (Hin : In b rs).
    { rewrite Hrs, <- (firstn_skipn n suf), Hpage'.
      rewrite !in_app_iff. right. left. right. now left. }
    destruct ascending as [_ Hids]. rewrite List.Forall_forall in Hids.
    destruct (doc_id b) as [c|] eqn:Hb; [|now contradiction (Hids b Hin)].
    rewrite (doc_id_get b c Hb).
    rewrite (IH (pre ++ firstn n suf) (skipn n suf) (Some c)).
    + unfold edges_of. rewrite <- map_app.
      change (S k * n)%nat with (n + k * n)%nat.
      now rewrite take_take_drop.
    + now rewrite <- app_assoc, firstn_skipn.
    + exists (pre ++ page'), b. split; [|exact Hb].
      now rewrite Hpage', app_assoc.
  - apply last_None in Hlast.
    pose proof (page_size_positive (params_pagination params)) as Hpos. fold n in Hpos.
    destruct suf as [|d suf]; [|destruct n; [lia | discriminate]].
    now rewrite !firstn_nil.
Qed.

(** X12.  Without a sort, over base results in ascending order of
    identifier whose records all resolve as cursors, [k] pages
    concatenate to the first [k * perPage] records of the base
    pipeline. *)
Theorem pagination_law_without_sort k :
  fetch_pages RegExp (Store.model collection) params h k None
  = Val (edges_of (firstn (k * n) rs)).
Proof. now apply (walk k [] rs None). Qed.

Lemma engine_cursor after d i :
  In d rs -> doc_id d = Some i ->
  exists cm, cursor_outcome (engine after) i = Val cm.
Proof.
  intros Hin Hd. unfold cursor_outcome, cursor_query.
  rewrite engine_base, engine_this. cbn [Model_ aggregate Store.model].
  destruct (Store.execute collection (Match (CEq "_id" (VOid i)) :: base)) eqn:E.
  - now destruct (resolvable d i Hin Hd).
  - eauto.
Qed.

Lemma engine_probe after cm c pre b suf :
  rs = pre ++ b :: suf ->
  doc_id b = Some c ->
  aggregate (Model_ (this (engine after))) (page_pipeline (engine after) cm c)
  = firstn n suf.
Proof.
  intros Hrs Hb. unfold page_pipeline. rewrite engine_base, engine_this.
  cbn [Model_ sort pagination aggregate Store.model].
  unfold boundary_ors. rewrite unsorted, execute_app.
  cbn [app fold_left Store.run_stage]. fold rs. fold (past c).
  rewrite Hrs, past_boundary; [reflexivity| |exact Hb].
  rewrite <- Hrs. apply ascending.
Qed.

(** X11.  Without a sort, over base results in ascending order of
    identifier whose records all resolve as cursors: on a page that is
    not empty, [hasNextPage] answers true exactly when records are left
    after the page. *)
Theorem hasNextPage_without_sort pre suf after :
  rs = pre ++ suf ->
  match after with
  | None => pre = []
  | Some a => exists pre' b, pre = pre' ++ [b] /\ doc_id b = Some a
  end ->
  firstn n suf <> [] ->
  fst (hasNextPage RegExp (engine after)) = Val (Nat.ltb n (length suf)).
Proof.
  intros Hrs Hafter Hpage_ne.
  pose proof (in_use_answers RegExp _ HasNextPage (engine_in_use after)) as Hn.
  cbn [ask expected] in Hn. injection Hn as ->.
  assert (Hpage : edges_result RegExp (engine after)
                  = Val (edges_of (firstn n suf))).
  { destruct after as [a|].
    - destruct Hafter as (pre' & b & -> & Hb).
      apply (engine_next_page pre' b suf a); [|exact Hb].
      now rewrite Hrs, <- app_assoc.
    - subst pre. cbn [app] in Hrs. rewrite <- Hrs. apply engine_first_page. }
  unfold next_result. rewrite Hpage, last_edge.
  destruct (last (firstn n suf)) as [b|] eqn:Hlast;
    [|apply last_None in Hlast; contradiction].
  apply last_Some in Hlast as [page' Hpage'].
  assert (Hsplit : rs = (pre ++ page') ++ b :: skipn n suf).
  { rewrite Hrs, <- (firstn_skipn n suf) at 1.
    rewrite Hpage', <- !app_assoc. reflexivity. }
  assert (Hin : In b rs).
  { rewrite Hsplit. apply in_app_iff. right. now left. }
  destruct ascending as [_ Hids]. rewrite List.Forall_forall in Hids.
  destruct (doc_id b) as [c|] eqn:Hb; [|now contradiction (Hids b Hin)].
  rewrite (doc_id_get b c Hb).
  assert (Hcm : exists cm, boundary_record (engine after) c = Val cm).
  { unfold boundary_record, pinned_cursor. rewrite engine_this.
    cbn [search pagination pg_after]. rewrite native.
    destruct after as [a|].
    - destruct Hafter as (pre' & b0 & -> & Hb0).
      apply (engine_cursor (Some a) b0 a); [|exact Hb0].
      rewrite Hrs, !in_app_iff. left. right. now left.
    - now apply (engine_cursor None b c). }
  destruct Hcm as [cm ->].
  rewrite (engine_probe after cm c (pre ++ page') b (skipn n suf) Hsplit Hb).
  f_equal. rewrite length_firstn, length_skipn.
  pose proof (page_size_positive (params_pagination params)) as Hpos. fold n in Hpos.
  destruct (Nat.ltb_spec n (length suf)), (Nat.ltb_spec 0 (Nat.min n (length suf - n)));
    try reflexivity; lia.
Qed.

End LawWithoutSort.

(* ===================================================================== *)
(** ** Counting *)

Section Counting.

Variable RegExp : RegExp_constructor.

Lemma strip_project_count pipeline :
  strip_project (pipeline ++ [Count "count"])
  = strip_project pipeline ++ [Count "count"].
Proof. unfold strip_project. now rewrite List.filter_app. Qed.

Lemma strip_project_none pipeline :
  Forall (fun a => stage_key a <> "$project") pipeline ->
  strip_project pipeline = pipeline.
Proof.
  induction 1 as [|a pipeline Ha _ IH]; [reflexivity|].
  unfold strip_project in *. cbn [List.filter].
  destruct (String.eqb_spec (stage_key a) "$project") as [E|_]; [contradiction|].
  cbn [negb]. now rewrite IH.
Qed.

Lemma execute_count collection pipeline :
  match Store.execute collection (pipeline ++ [Count "count"]) with
  | first :: _ => Val (get "count" first)
  | [] => Val (Some (VNum 0))
  end
  = Val (Some (VNum (Z.of_nat (length (Store.execute collection pipeline))))).
Proof.
  unfold Store.execute. rewrite fold_left_app. cbn [fold_left Store.run_stage].
  destruct (fold_left Store.run_stage pipeline collection); reflexivity.
Qed.

(** X19.  On an instance over the collection [collection],
    [getTotalCount] answers in native mode the number of records of the base pipeline
    without its [$project] stages (the number of records of the base
    pipeline itself when it has no such stage), zero when there is none;
    in search mode the number of records of the base pipeline that match
    the pattern, and a SyntaxError on a pattern the runtime refuses. *)
Theorem getTotalCount_counts collection w :
  in_use RegExp w ->
  Model_ (this w) = Store.model collection ->
  (Boolean_str (search (this w)) = false ->
     fst (getTotalCount RegExp w)
     = Val (Some (VNum (Z.of_nat
         (length (Store.execute collection (strip_project (base_of w)))))))
     /\ (Forall (fun a => stage_key a <> "$project") (base_of w) ->
         fst (getTotalCount RegExp w)
         = Val (Some (VNum (Z.of_nat
             (length (Store.execute collection (base_of w))))))))
  /\ (forall s, search (this w) = Some s -> s <> "" ->
        (forall regex, RegExp s "i" = Some regex ->
           fst (getTotalCount RegExp w)
           = Val (Some (VNum (Z.of_nat
               (length (List.filter (matching regex)
                          (Store.execute collection (base_of w))))))))
        /\ (RegExp s "i" = None ->
            fst (getTotalCount RegExp w) = Err SyntaxError)).
Proof.
  intros Hw HM.
  pose proof (in_use_answers RegExp w GetTotalCount Hw) as Hc.
  cbn [ask expected] in Hc. injection Hc as ->.
  unfold count_result. rewrite HM. cbn [aggregate Store.model].
  split.
  - intros ->. rewrite strip_project_count, execute_count.
    split; [reflexivity|]. intros Hnp. now rewrite strip_project_none.
  - intros s Hs Hne. rewrite Hs. cbn [Boolean_str default].
    destruct (String.eqb_spec s "") as [E|_]; [contradiction|]. cbn [negb].
    split.
    + intros regex Hre. now rewrite (filterResults_no_pagination RegExp _ s regex).
    + intros Hre. now rewrite filterResults_refused.
Qed.

End Counting.

Module CountingExamples.
Import Scenario.

(** C9.  One record with score 5 behind a projection that drops the
    score: the base pipeline (projection, then the score filter) has no
    record, and [getTotalCount], which strips the projection from its
    count pipeline, answers 1. *)
Theorem count_differs_from_base_pipeline :
  Store.execute [scored 1 "x" 5]
    (base_of (constructor (Store.model [scored 1 "x" 5]) projected_params
                projecting_heap)) = []
  /\ fst (getTotalCount literal_RegExp
            (constructor (Store.model [scored 1 "x" 5]) projected_params
               projecting_heap))
     = Val (Some (VNum 1)).
Proof. split; vm_compute; reflexivity. Qed.

Lemma getTotalCount_counts_witness :
  fst (getTotalCount literal_RegExp first_page)
  = Val (Some (VNum (Z.of_nat
      (length (Store.execute scores (strip_project (base_of first_page)))))))
  /\ fst (getTotalCount literal_RegExp first_page)
     = Val (Some (VNum (Z.of_nat
         (length (Store.execute scores (base_of first_page))))))
  /\ fst (getTotalCount literal_RegExp (search_world "AD" None None AsString))
     = Val (Some (VNum (Z.of_nat
         (length (List.filter (matching contains_ad)
                    (Store.execute few_named
                       (base_of (search_world "AD" None None AsString))))))))
  /\ fst (getTotalCount literal_RegExp (search_world "(" None None AsString))
     = Err SyntaxError.
Proof.
  destruct (getTotalCount_counts literal_RegExp scores first_page) as [Hnative _];
    [apply in_use_new; vm_compute; lia | reflexivity |].
  destruct Hnative as [Hcount Hplain]; [reflexivity|].
  split; [exact Hcount|]. split.
  { apply Hplain. vm_compute. repeat constructor. discriminate. }
  split.
  - destruct (getTotalCount_counts literal_RegExp few_named
                (search_world "AD" None None AsString)) as [_ Hsearch];
      [apply in_use_new; vm_compute; lia | reflexivity |].
    destruct (Hsearch "AD" eq_refl) as [Hvalid _]; [discriminate|].
    apply Hvalid. reflexivity.
  - destruct (getTotalCount_counts literal_RegExp few_named
                (search_world "(" None None AsString)) as [_ Hsearch];
      [apply in_use_new; vm_compute; lia | reflexivity |].
    destruct (Hsearch "(" eq_refl) as [_ Hrefused]; [discriminate|].
    apply Hrefused. reflexivity.
Defined.

End CountingExamples.

(* ===================================================================== *)
(** ** The size of a page *)

Section PageSize.

Variable RegExp : RegExp_constructor.

Lemma scan_skipping_bounded regex p n docs :
  pg_first p = Some n ->
  pg_after p <> None ->
  (length (filterResults_scan regex (Some p) (-1) docs) <= N.to_nat n)%nat.
Proof.
  intros Hn Ha. induction docs as [|r docs IH]; [cbn; lia|].
  cbn [filterResults_scan].
  rewrite count_is_first_skip. cbn [Boolean_opt after_of andb].
  destruct (pg_after p) as [a|]; [|contradiction]. cbn [Boolean_opt].
  change (Z.eqb (-1) (-1)) with true. cbn [andb].
  destruct (id_is (get "_id" r) (Some p)); [|exact IH].
  change (-1 + 1)%Z with (Z.of_nat 0).
  rewrite (scan_taking regex p n) by (assumption || lia).
  rewrite length_firstn. lia.
Qed.

Lemma filterResults_bounded docs search p n matches :
  pg_first p = Some n ->
  filterResults RegExp docs search (Some p) = Val matches ->
  (length matches <= N.to_nat n)%nat.
Proof.
  intros Hn. unfold filterResults.
  destruct (RegExp search "i") as [regex|]; [|discriminate].
  intros [= <-]. cbn [after_of].
  destruct (pg_after p) as [a|] eqn:Ha; cbn [Boolean_opt].
  - apply scan_skipping_bounded; [exact Hn | now rewrite Ha].
  - change 0%Z with (Z.of_nat 0).
    rewrite (scan_taking regex p n) by (assumption || lia).
    rewrite length_firstn. lia.
Qed.

Lemma execute_limit collection pipeline n :
  (length (Store.execute collection (pipeline ++ [Limit n])) <= N.to_nat n)%nat.
Proof.
  unfold Store.execute. rewrite fold_left_app. cbn [fold_left Store.run_stage].
  rewrite length_firstn. lia.
Qed.

(** X3.  The page of an instance over a collection: in native mode
    never more than [pagination.first || 25] edges; in search mode never
    more than [pagination.first], when it is given. *)
Theorem getEdges_page_bound collection w edges :
  in_use RegExp w ->
  Model_ (this w) = Store.model collection ->
  fst (getEdges RegExp w) = Val edges ->
  (Boolean_str (search (this w)) = false ->
     (length edges <= N.to_nat (page_size (pagination (this w))))%nat)
  /\ (forall n, Boolean_str (search (this w)) = true ->
        pg_first (pagination (this w)) = Some n ->
        (length edges <= N.to_nat n)%nat).
Proof.
  intros Hw HM He.
  pose proof (in_use_answers RegExp w GetEdges Hw) as Ha.
  cbn [ask expected] in Ha. injection Ha as Ha. rewrite He in Ha.
  unfold edges_result in Ha. rewrite HM in Ha. cbn [aggregate Store.model] in Ha.
  split.
  - intros Hnative. rewrite Hnative in Ha.
    destruct (pg_after (pagination (this w))) as [a|].
    + destruct (cursor_outcome w a) as [cm|e]; [|discriminate].
      injection Ha as ->. unfold edges_of. rewrite length_map.
      unfold page_pipeline.
      change [Match (COr (boundary_ors (sort (this w)) cm a));
              Limit (page_size (pagination (this w)))]
        with ([Match (COr (boundary_ors (sort (this w)) cm a))]
              ++ [Limit (page_size (pagination (this w)))]).
      rewrite app_assoc. apply execute_limit.
    + injection Ha as ->. unfold edges_of. rewrite length_map.
      apply execute_limit.
  - intros n Hsearch Hfirst. rewrite Hsearch in Ha.
    destruct (filterResults RegExp _ _ _) as [docs|e] eqn:Hf; [|discriminate].
    injection Ha as ->. unfold edges_of. rewrite length_map.
    now apply (filterResults_bounded _ _ _ n docs Hfirst Hf).
Qed.

End PageSize.

(* ===================================================================== *)
(** ** A cursor that does not resolve *)

Section CursorNotFound.

Variable RegExp : RegExp_constructor.






End CursorNotFound.

Module CursorExamples.
Import Scenario.


End CursorExamples.

(* ===================================================================== *)
(** ** Memoization under the event loop *)

Module AsyncFacts.
Import Async.

Section Memo.

Variable RegExp : RegExp_constructor.
Variable c : config.

Lemma slot_eqb_eq a b : slot_eqb a b = true <-> a = b.
Proof. destruct a, b; cbn; split; intros H; try reflexivity; discriminate. Qed.

Lemma slot_eqb_refl a : slot_eqb a a = true.
Proof. now apply slot_eqb_eq. Qed.

Lemma memo_call_settled s id m p :
  slots m s = Some p -> memo_call RegExp c s id m = (p, m).
Proof. intros H. unfold memo_call. now rewrite H. Qed.

Lemma result_of_app p rs q o o' :
  result_of p rs = Some o -> result_of p (rs ++ [(q, o')]) = Some o.
Proof.
  induction rs as [|[r x] rs IH]; cbn; [discriminate|].
  destruct (Nat.eqb r p); auto.
Qed.

Lemma grows_refl m : grows m m.
Proof. split; auto. Qed.

Lemma grows_trans m1 m2 m3 : grows m1 m2 -> grows m2 m3 -> grows m1 m3.
Proof. intros [s1 r1] [s2 r2]. split; auto. Qed.

Lemma grows_set_pool pl m : grows m (set_pool pl m).
Proof. split; auto. Qed.

Lemma grows_settle p o m : grows m (settle p o m).
Proof.
  split; cbn; auto. intros q o' H.
  destruct (result_of p (results m)); [exact H|]. now apply result_of_app.
Qed.

Lemma grows_memo_call s id m :
  grows m (snd (memo_call RegExp c s id m)).
Proof.
  unfold memo_call. destruct (slots m s) as [p|] eqn:Hs; cbn [snd].
  - apply grows_refl.
  - split; cbn; auto.
    intros s' p H. destruct (slot_eqb s' s) eqn:E; [|exact H].
    apply slot_eqb_eq in E. congruence.
Qed.

Lemma grows_turn i p t m : grows m (turn RegExp c i p t m).
Proof.
  destruct t as [o|pl k|q k|s id k|n k]; cbn [turn].
  - eapply grows_trans; [apply grows_set_pool | apply grows_settle].
  - split; auto.
  - destruct (result_of q (results m)) as [[v|e]|];
      [apply grows_set_pool | apply grows_set_pool | apply grows_refl].
  - pose proof (grows_memo_call s id m) as H.
    destruct (memo_call RegExp c s id m) as [q m']. cbn [snd] in H.
    eapply grows_trans; [exact H | apply grows_set_pool].
  - split; auto.
Qed.

Lemma grows_react m e : grows m (react RegExp c m e).
Proof.
  destruct e as [op|i]; cbn [react].
  - apply grows_memo_call.
  - destruct (pool m !! i) as [[p t]|]; [apply grows_turn | apply grows_refl].
Qed.

Lemma grows_run events m : grows m (run RegExp c events m).
Proof.
  revert m. induction events as [|e events IH]; intros m; [apply grows_refl|].
  cbn [run fold_left]. eapply grows_trans; [apply grows_react | apply IH].
Qed.

Lemma sound_init : sound init.
Proof. split; cbn; auto; contradiction. Qed.

Lemma sound_memo_call s id m :
  sound m -> sound (snd (memo_call RegExp c s id m)).
Proof.
  intros [Hr Hp Hl]. unfold memo_call.
  destruct (slots m s) as [p|] eqn:Hs; cbn [snd]; [now split|].
  split; cbn [slots pool store_log started].
  - intros s'. unfold runs_of in *. cbn [started].
    rewrite List.filter_app, map_app, Hr. cbn [List.filter fst].
    destruct (slot_eqb s' s) eqn:E.
    + apply slot_eqb_eq in E. subst s'. rewrite Hs, slot_eqb_refl. reflexivity.
    + assert (slot_eqb s s' = false) as ->.
      { destruct (slot_eqb s s') eqn:E'; [|reflexivity].
        apply slot_eqb_eq in E'. subst. now rewrite slot_eqb_refl in E. }
      cbn. now rewrite app_nil_r.
  - intros q t Hin. rewrite map_app, in_app_iff. apply in_app_iff in Hin.
    destruct Hin as [Hin | [[= <- _] | []]]; [left; eauto | right; now left].
  - intros q pl Hin. rewrite map_app, in_app_iff. left. eauto.
Qed.

Lemma in_insert (i : nat) (x : pid * task) l y :
  In y (<[i := x]> l) -> y = x \/ In y l.
Proof.
  revert i. induction l as [|z l IH]; intros [|i]; cbn; auto.
  - intros [<- | H]; auto.
  - intros [<- | H]; auto. destruct (IH i H); auto.
Qed.

Lemma in_delete (i : nat) (l : list (pid * task)) y :
  In y (delete i l) -> In y l.
Proof.
  revert i. induction l as [|z l IH]; intros [|i]; cbn; auto.
  intros [<- | H]; eauto.
Qed.

Lemma sound_replace i p t t' m pl :
  sound m -> pool m !! i = Some (p, t) ->
  (forall q u, In (q, u) pl -> (q, u) = (p, t') \/ In (q, u) (pool m)) ->
  sound (set_pool pl m).
Proof.
  intros [Hr Hp Hl] Hi Hpl. split; cbn; auto.
  intros q u Hin. destruct (Hpl q u Hin) as [[= -> _] | H]; [|eauto].
  apply (Hp p t). now apply list_elem_of_In, list_elem_of_lookup_2 with i.
Qed.

Lemma sound_turn i p t m :
  sound m -> pool m !! i = Some (p, t) -> sound (turn RegExp c i p t m).
Proof.
  intros Hm Hi. pose proof Hm as [Hr Hp Hl].
  assert (Hpin : In p (map snd (started m))).
  { apply (Hp p t). now apply list_elem_of_In, list_elem_of_lookup_2 with i. }
  destruct t as [o|pl k|q k|s id k|n k]; cbn [turn].
  - split; cbn; auto. intros q u Hin. apply in_delete in Hin. eauto.
  - split; cbn; auto.
    + intros q u Hin. apply in_insert in Hin as [[= -> _] | H]; eauto.
    + intros q u Hin. apply in_app_iff in Hin as [H | [[= <- _] | []]]; eauto.
  - destruct (result_of q (results m)) as [[v|e]|]; [| |exact Hm].
    + eapply (sound_replace i p _ (k v) m); eauto. intros ? ?. apply in_insert.
    + eapply (sound_replace i p _ (Finish (Err e)) m); eauto.
      intros ? ?. apply in_insert.
  - pose proof (sound_memo_call s id m Hm) as H.
    pose proof (grows_memo_call s id m) as Hg.
    unfold memo_call in *. destruct (slots m s) as [r|] eqn:Hs; cbn [snd] in *.
    + eapply (sound_replace i p _ (k r) m); eauto. intros ? ?. apply in_insert.
    + destruct H as [Hr' Hp' Hl']. split; cbn in *; auto.
      intros q u Hin. apply in_insert in Hin as [[= -> _] | Hin]; [|eauto].
      rewrite map_app, in_app_iff. now left.
  - split; cbn; auto.
    intros q u Hin. apply in_insert in Hin as [[= -> _] | H]; eauto.
Qed.

Lemma sound_react m e : sound m -> sound (react RegExp c m e).
Proof.
  intros Hm. destruct e as [op|i]; cbn [react].
  - now apply sound_memo_call.
  - destruct (pool m !! i) as [[p t]|] eqn:Hi; [now apply sound_turn | exact Hm].
Qed.

Lemma sound_run events m : sound m -> sound (run RegExp c events m).
Proof.
  revert m. induction events as [|e events IH]; intros m Hm; [exact Hm|].
  cbn [run fold_left]. now apply IH, sound_react.
Qed.

Lemma memo_call_slot s id m :
  slots (snd (memo_call RegExp c s id m)) s
  = Some (fst (memo_call RegExp c s id m)).
Proof.
  unfold memo_call. destruct (slots m s) as [p|] eqn:Hs; cbn [fst snd]; [exact Hs|].
  cbn [slots]. now rewrite slot_eqb_refl.
Qed.

(** C7.  On one instance, whatever was called and whatever has run so
    far: a call of a public operation answers a promise, and at any
    later time (the computation in flight or settled) a call of the
    same operation answers the same promise and changes nothing, so it
    starts no computation and sends nothing to the store; one run at
    most was ever started for the operation; a settled promise keeps
    its outcome, value or error; and every store call was issued by a
    started run. *)
Theorem memoized_once events op later :
  let m := run RegExp c events init in
  let p := fst (invoke RegExp c op m) in
  let m1 := snd (invoke RegExp c op m) in
  let m2 := run RegExp c later m1 in
  invoke RegExp c op m2 = (p, m2)
  /\ runs_of (slot_of op) m2 = [p]
  /\ (forall o,
         result_of p (results m1) = Some o -> result_of p (results m2) = Some o)
  /\ (forall q pipeline,
         In (q, pipeline) (store_log m2) -> In q (map snd (started m2))).
Proof.
  intros m p m1 m2.
  assert (Hm : sound m) by apply sound_run, sound_init.
  assert (Hm1 : sound m1) by now apply sound_memo_call.
  assert (Hm2 : sound m2) by now apply sound_run.
  pose proof (grows_run later m1) as Hg. fold m2 in Hg.
  assert (Hs1 : slots m1 (slot_of op) = Some p) by apply memo_call_slot.
  pose proof (g_slots _ _ Hg _ _ Hs1) as Hs2.
  split; [|split; [|split]].
  - now apply memo_call_settled.
  - now rewrite (runs_ok _ Hm2), Hs2.
  - intros o. apply (g_results _ _ Hg).
  - apply (log_ok _ Hm2).
Qed.

End Memo.
End AsyncFacts.

(* ===================================================================== *)
(** ** The result filter without a cursor *)

Section FilterMore.

Variable RegExp : RegExp_constructor.

(** X1.  Without a cursor ([pagination] absent, or [pagination.after]
    absent) and on a pattern the runtime compiles, [filterResults]
    keeps the records of which a field value matches the pattern under
    the flag [i], in the order of the input: all of them without a
    pagination object or without [pagination.first], the first
    [pagination.first] of them otherwise.  On a pattern the runtime
    refuses it throws a SyntaxError, whatever the pagination. *)
Theorem filterResults_without_cursor results search :
  (forall regex, RegExp search "i" = Some regex ->
     filterResults RegExp results search None
     = Val (List.filter (matching regex) results)
     /\ forall first form,
          filterResults RegExp results search
            (Some {| pg_first := first; pg_after := None; pg_after_form := form |})
          = Val (take_page first (List.filter (matching regex) results)))
  /\ (RegExp search "i" = None ->
      forall pagination,
        filterResults RegExp results search pagination = Err SyntaxError).
Proof.
  split.
  - intros regex Hre. split; [now apply filterResults_no_pagination|].
    intros first form. unfold filterResults. rewrite Hre.
    cbn [after_of pg_after Boolean_opt]. now rewrite scan_page.
  - intros Hre pagination. now apply filterResults_refused.
Qed.

Lemma scan_sublist regex pagination docs : forall count,
  filterResults_scan regex pagination count docs
  `sublist_of` List.filter (matching regex) docs.
Proof.
  induction docs as [|r docs IH]; intros count; [constructor|].
  cbn [filterResults_scan List.filter].
  rewrite some_value_matches_matching.
  assert (Hskip : forall c,
    filterResults_scan regex pagination c docs
    `sublist_of` (if matching regex r
                  then r :: List.filter (matching regex) docs
                  else List.filter (matching regex) docs)).
  { intros c. destruct (matching regex r); [apply sublist_cons|]; apply IH. }
  destruct (Boolean_opt pagination && count_is_first count pagination);
    [apply Hskip|].
  destruct (Boolean_opt pagination && Boolean_opt (after_of pagination)
            && (count =? -1)%Z).
  - destruct (id_is (get "_id" r) pagination); apply Hskip.
  - destruct (matching regex r) eqn:Hm.
    + apply sublist_skip, IH.
    + apply IH.
Qed.

(** X2.  On a pattern the runtime compiles and whatever the pagination,
    [filterResults] returns records that match the pattern, each at most
    as often as in the input and in the order of the input: its result
    is a sublist of the matching records. *)
Theorem filterResults_sublist results search pagination regex :
  RegExp search "i" = Some regex ->
  exists kept,
    filterResults RegExp results search pagination = Val kept
    /\ kept `sublist_of` List.filter (matching regex) results.
Proof.
  intros Hre. unfold filterResults. rewrite Hre.
  eexists. split; [reflexivity | apply scan_sublist].
Qed.

End FilterMore.

(* ===================================================================== *)
(** ** What the operations send and answer *)

Section StoreCalls.

Variable RegExp : RegExp_constructor.

(** X4.  The first call of [getTotalCount] on an instance sends exactly
    one pipeline to the store (in search mode the base pipeline, else the
    base pipeline and [$count] without the [$project] stages); once its
    slot is filled a call changes nothing. *)
Theorem getTotalCount_sends_one_query w :
  wf w ->
  (p_count (promises (this w)) = None ->
     calls (snd (getTotalCount RegExp w)) = calls w ++ [count_query w])
  /\ (p_count (promises (this w)) <> None ->
      snd (getTotalCount RegExp w) = w).
Proof.
  intros Hwf. split; intros Hslot.
  - unfold getTotalCount, memo, count_query, strip_project, base_of.
    rewrite Hslot. cbv [bind get_this]. cbn [this].
    destruct (Boolean_str (search (this w))).
    + js_unfold. heap_norm.
      destruct (filterResults RegExp _ _ _); reflexivity.
    + js_unfold. heap_norm. destruct (aggregate _ _); reflexivity.
  - unfold getTotalCount, memo.
    destruct (p_count (promises (this w))); [reflexivity | contradiction].
Qed.

(** X5.  The first page fetch sends: in search mode the base pipeline
    alone, without a limit; in native mode without [after] the base
    pipeline and the limit; with an [after] that resolves, the cursor
    query and then the base pipeline with the boundary and the limit. *)
Theorem getEdges_sends w :
  wf w ->
  p_edge (promises (this w)) = None ->
  p_model (promises (this w)) = None ->
  (Boolean_str (search (this w)) = true ->
     calls (snd (getEdges RegExp w)) = calls w ++ [base_of w])
  /\ (Boolean_str (search (this w)) = false ->
      pg_after (pagination (this w)) = None ->
      calls (snd (getEdges RegExp w)) = calls w ++ [first_page_pipeline w])
  /\ (forall a cm,
        Boolean_str (search (this w)) = false ->
        pg_after (pagination (this w)) = Some a ->
        cursor_outcome w a = Val cm ->
        calls (snd (getEdges RegExp w))
        = calls w ++ [cursor_query w a; page_pipeline w cm a]).
Proof.
  intros Hwf He Hm. unfold getEdges, memo. rewrite He. cbv [bind get_this].
  split; [|split].
  - intros ->. cbn [negb]. js_unfold.
    destruct (filterResults RegExp _ _ _); reflexivity.
  - intros -> ->. cbn [negb].
    rewrite aggregationAddPagination_none by exact Hwf.
    js_unfold. heap_norm. reflexivity.
  - intros a cm -> -> Hcm. cbn [negb].
    rewrite aggregationAddPagination_some by exact Hwf.
    rewrite Hm, Hcm. js_unfold. heap_norm. reflexivity.
Qed.


End StoreCalls.

Section MoreAnswers.

Variable RegExp : RegExp_constructor.

Lemma node_edges_of docs : map node (edges_of docs) = docs.
Proof.
  unfold edges_of. rewrite map_map. cbn [node]. apply map_id.
Qed.

Lemma edges_result_shape w edges :
  edges_result RegExp w = Val edges -> edges = edges_of (map node edges).
Proof.
  unfold edges_result. intros H.
  destruct (Boolean_str (search (this w))).
  - destruct (filterResults RegExp _ _ _); [|discriminate].
    injection H as <-. now rewrite node_edges_of.
  - destruct (pg_after (pagination (this w))) as [a|].
    + destruct (cursor_outcome w a); [|discriminate].
      injection H as <-. now rewrite node_edges_of.
    + injection H as <-. now rewrite node_edges_of.
Qed.

(** X6.  On an instance in use, whatever was called before: every edge
    of the page pairs a record with the record's [_id]; the end cursor is
    the [_id] of the last record of the page, null when the page is
    empty; and when the page is rejected the end cursor is rejected with
    the same error. *)
Theorem end_cursor_of_page w :
  in_use RegExp w ->
  match fst (getEdges RegExp w) with
  | Val edges =>
      edges = edges_of (map node edges)
      /\ fst (getEndCursor RegExp w)
         = Val (match last (map node edges) with
                | Some doc => get "_id" doc
                | None => None
                end)
  | Err e => fst (getEndCursor RegExp w) = Err e
  end.
Proof.
  intros Hw.
  pose proof (in_use_answers RegExp w GetEdges Hw) as He.
  pose proof (in_use_answers RegExp w GetEndCursor Hw) as Hc.
  cbn [ask expected] in He, Hc. injection He as He. injection Hc as Hc.
  rewrite He, Hc.
  destruct (edges_result RegExp w) as [edges|e] eqn:E; [|reflexivity].
  split; [now apply edges_result_shape with w|].
  cbn [end_cursor_of]. f_equal.
  change (map node edges) with (node <$> edges). rewrite fmap_last.
  destruct (last edges) as [e|] eqn:Hl; [|reflexivity].
  cbn. pose proof (edges_result_shape w edges E) as Hshape.
  assert (Hin : In e edges).
  { apply last_Some in Hl as [l' ->]. apply in_app_iff. right. now left. }
  rewrite Hshape in Hin. unfold edges_of in Hin.
  apply in_map_iff in Hin as (d & <- & _). reflexivity.
Qed.

(** X7.  What an operation answers does not depend on the operations
    called before it, nor on their order. *)
Theorem answers_independent_of_history w op before before' :
  in_use RegExp w ->
  ask RegExp op (run_calls RegExp before w)
  = ask RegExp op (run_calls RegExp before' w).
Proof.
  intros Hw. now rewrite !run_calls_answers.
Qed.

(** X8.  The total count does not depend on the pagination parameters:
    two instances constructed alike but for [pagination] answer the same
    count, whatever was called on each. *)
Theorem count_independent_of_pagination Model params pagination' h ops ops' :
  (baseAggregationPipeline params < length h)%nat ->
  fst (getTotalCount RegExp
         (run_calls RegExp ops (constructor Model params h)))
  = fst (getTotalCount RegExp
           (run_calls RegExp ops'
              (constructor Model (with_pagination params pagination') h))).
Proof.
  intros Hb.
  assert (H1 : in_use RegExp (constructor Model params h)) by now constructor.
  assert (H2 : in_use RegExp
                 (constructor Model (with_pagination params pagination') h))
    by now constructor.
  pose proof (run_calls_answers RegExp ops _ GetTotalCount H1) as E1.
  pose proof (run_calls_answers RegExp ops' _ GetTotalCount H2) as E2.
  cbn [ask expected] in E1, E2. injection E1 as ->. injection E2 as ->.
  unfold count_result, base_of. rewrite !constructor_world.
  reflexivity.
Qed.

(** X9.  The probe of [hasNextPage].  On a page whose end cursor is the
    identifier [c], [hasNextPage] answers whether the base pipeline
    followed by the boundary at [c] and the limit returns a record.  The
    sort value of the boundary is read from the record of
    [pagination.after] when the instance is in native mode with an
    [after], and from the record of [c] otherwise; in search mode the
    pattern plays no part. *)
Theorem hasNextPage_probe w edges e c cm :
  in_use RegExp w ->
  fst (getEdges RegExp w) = Val edges ->
  last edges = Some e ->
  cursor e = Some (VOid c) ->
  (Boolean_str (search (this w)) = false
   /\ exists a, pg_after (pagination (this w)) = Some a
                /\ cursor_outcome w a = Val cm)
  \/ ((Boolean_str (search (this w)) = true
       \/ pg_after (pagination (this w)) = None)
      /\ cursor_outcome w c = Val cm) ->
  fst (hasNextPage RegExp w)
  = Val (Nat.ltb 0
           (length (aggregate (Model_ (this w))
                      (base_of w
                       ++ [Match (COr (boundary_ors (sort (this w)) cm c));
                           Limit (page_size (pagination (this w)))])))).
Proof.
  intros Hw Hedges Hlast Hcur Hcm.
  pose proof (in_use_answers RegExp w GetEdges Hw) as He.
  pose proof (in_use_answers RegExp w HasNextPage Hw) as Hn.
  cbn [ask expected] in He, Hn. injection He as He. injection Hn as ->.
  rewrite Hedges in He.
  unfold next_result. rewrite <- He. cbn [end_cursor_of]. rewrite Hlast, Hcur.
  assert (Hb : boundary_record w c = Val cm).
  { unfold boundary_record, pinned_cursor.
    destruct Hcm as [[Hnat (a & Ha & Hcm)] | [[Hs | Ha] Hcm]].
    - now rewrite Hnat, Ha.
    - now rewrite Hs.
    - rewrite Ha. now destruct (Boolean_str (search (this w))). }
  now rewrite Hb.
Qed.

Lemma filterResults_stale docs search regex first a form :
  RegExp search "i" = Some regex ->
  Forall (fun d => ~ equals_after a form d) docs ->
  filterResults RegExp docs search
    (Some {| pg_first := first; pg_after := Some a; pg_after_form := form |})
  = Val [].
Proof.
  intros Hre Hall. unfold filterResults. rewrite Hre.
  cbn [after_of pg_after Boolean_opt].
  rewrite <- (app_nil_r docs). rewrite scan_skipping; [reflexivity | discriminate |].
  eapply List.Forall_impl; [|exact Hall].
  intros d Hd. now apply id_is_not_equals_after.
Qed.

(** X10.  In search mode the page fetch never resolves a cursor, and it
    is rejected exactly when the runtime refuses the pattern, with a
    SyntaxError.  On a pattern the runtime compiles it answers a page,
    the empty page when no record of the base pipeline has an id equal
    to [pagination.after]. *)
Theorem search_page_rejected_on_pattern_only w s :
  in_use RegExp w ->
  search (this w) = Some s ->
  s <> "" ->
  (RegExp s "i" = None -> fst (getEdges RegExp w) = Err SyntaxError)
  /\ (RegExp s "i" <> None -> exists edges, fst (getEdges RegExp w) = Val edges)
  /\ p_model (promises (this (call RegExp GetEdges w)))
     = p_model (promises (this w))
  /\ (forall a,
        RegExp s "i" <> None ->
        pg_after (pagination (this w)) = Some a ->
        Forall (fun d => ~ equals_after a (pg_after_form (pagination (this w))) d)
          (aggregate (Model_ (this w)) (base_of w)) ->
        fst (getEdges RegExp w) = Val []).
Proof.
  intros Hw Hsearch Hne.
  assert (Hs : Boolean_str (search (this w)) = true).
  { rewrite Hsearch. cbn. now destruct (String.eqb_spec s ""). }
  pose proof (in_use_answers RegExp w GetEdges Hw) as He.
  cbn [ask expected] in He. injection He as He.
  assert (Hr : edges_result RegExp w
               = match filterResults RegExp
                         (aggregate (Model_ (this w)) (base_of w)) s
                         (Some (pagination (this w))) with
                 | Val docs => Val (edges_of docs)
                 | Err e => Err e
                 end).
  { unfold edges_result. now rewrite Hs, Hsearch. }
  split; [|split; [|split]].
  - intros Hre. now rewrite He, Hr, filterResults_refused.
  - intros Hre. rewrite He, Hr. unfold filterResults.
    destruct (RegExp s "i") as [regex|]; [|contradiction]. eauto.
  - pose proof (in_use_slots_ok _ _ Hw) as Hok.
    destruct (p_edge (promises (this w))) as [o|] eqn:Hslot.
    + rewrite settled_call; [reflexivity|]. cbn [settled]. rewrite Hslot. discriminate.
    + destruct (getEdges_fresh RegExp w (ok_wf _ _ Hok) Hslot
                  (model_empty _ _ Hok Hslot)) as (hx & cx & pp & E).
      cbn [call]. rewrite E. cbn [snd this this_with promises].
      unfold pinned_cursor. rewrite Hs. reflexivity.
  - intros a Hre Ha Hstale. rewrite He, Hr.
    destruct (RegExp s "i") as [regex|] eqn:Hc; [|contradiction].
    destruct (pagination (this w)) as [first after form].
    cbn in Ha, Hstale. subst after.
    now rewrite (filterResults_stale _ s regex first a form Hc Hstale).
Qed.

End MoreAnswers.

(* ===================================================================== *)
(** ** The number of store queries *)

Section Cost.

Variable RegExp : RegExp_constructor.

Lemma paid_refl w : paid w w.
Proof. unfold paid. lia. Qed.

Lemma paid_trans w1 w2 w3 : paid w1 w2 -> paid w2 w3 -> paid w1 w3.
Proof. unfold paid. lia. Qed.

Lemma getTotalCount_paid w :
  wf w -> paid w (snd (getTotalCount RegExp w)).
Proof.
  intros Hwf. unfold getTotalCount, memo.
  destruct (p_count (promises (this w))) as [o|] eqn:Hslot; [apply paid_refl|].
  cbv [bind get_this]. cbn [this].
  destruct (Boolean_str (search (this w))).
  - js_unfold. destruct (filterResults RegExp _ _ _); cbn [snd]; unfold paid, settled_slots;
    cbn [calls this promises set_promises p_count p_model p_edge p_nextPage store_count];
    rewrite Hslot, length_app; cbn [length filled]; lia.
  - js_unfold. destruct (aggregate _ _); cbn [snd]; unfold paid, settled_slots;
    cbn [calls this promises set_promises p_count p_model p_edge p_nextPage store_count];
    rewrite Hslot, length_app; cbn [length filled]; lia.
Qed.

Lemma getEdges_paid w :
  slots_ok RegExp w -> paid w (snd (getEdges RegExp w)).
Proof.
  intros Hok. pose proof (ok_wf _ _ Hok) as Hwf.
  unfold getEdges, memo.
  destruct (p_edge (promises (this w))) as [o|] eqn:He; [apply paid_refl|].
  pose proof (model_empty _ _ Hok He) as Hm.
  cbv [bind get_this].
  destruct (Boolean_str (search (this w))); cbn [negb].
  - js_unfold. destruct (filterResults RegExp _ _ _); cbn [snd]; unfold paid, settled_slots;
    cbn [calls this promises set_promises p_count p_model p_edge p_nextPage store_edge];
    rewrite He, length_app; cbn [length filled]; lia.
  - destruct (pg_after (pagination (this w))) as [a|].
    + rewrite aggregationAddPagination_some by exact Hwf. rewrite Hm.
      destruct (cursor_outcome w a) as [cm|e].
      * js_unfold. heap_norm. cbn [snd]. unfold paid, settled_slots.
        cbn [calls this promises set_promises set_perPage p_count p_model p_edge
             p_nextPage store_edge store_model].
        rewrite He, Hm, length_app. cbn [length filled]. lia.
      * js_unfold. heap_norm. cbn [snd]. unfold paid, settled_slots.
        cbn [calls this promises set_promises set_perPage p_count p_model p_edge
             p_nextPage store_edge store_model].
        rewrite He, Hm, length_app. cbn [length filled]. lia.
    + rewrite aggregationAddPagination_none by exact Hwf.
      js_unfold. heap_norm. cbn [snd]. unfold paid, settled_slots.
      cbn [calls this promises set_promises set_perPage p_count p_model p_edge
           p_nextPage store_edge].
      rewrite He, length_app. cbn [length filled]. lia.
Qed.

Lemma getEndCursor_paid w :
  slots_ok RegExp w -> paid w (snd (getEndCursor RegExp w)).
Proof.
  intros Hok.
  destruct (p_cursor (promises (this w))) as [o|] eqn:Hslot.
  - unfold getEndCursor, memo. rewrite Hslot. apply paid_refl.
  - pose proof (getEdges_paid w Hok) as Hp.
    destruct (getEdges_spec RegExp w Hok) as (w1 & E & _).
    rewrite E in Hp. cbn [snd] in Hp.
    unfold getEndCursor, memo. rewrite Hslot. cbv [bind]. rewrite E.
    eapply paid_trans; [exact Hp|].
    destruct (edges_result RegExp w) as [edges|e].
    + destruct (last edges); cbn [snd]; unfold paid, settled_slots; cbn; lia.
    + cbn [snd]. unfold paid, settled_slots; cbn; lia.
Qed.

Lemma hasNextPage_paid w :
  slots_ok RegExp w -> paid w (snd (hasNextPage RegExp w)).
Proof.
  intros Hok. pose proof (ok_wf _ _ Hok) as Hwf.
  destruct (p_nextPage (promises (this w))) as [o|] eqn:Hslot.
  - unfold hasNextPage, memo. rewrite Hslot. apply paid_refl.
  - pose proof (getEndCursor_paid w Hok) as Hp.
    destruct (getEndCursor_spec RegExp w Hok) as (w1 & E & Hok1 & Hev & Hc & Hn1).
    rewrite E in Hp. cbn [snd] in Hp.
    pose proof (ok_wf _ _ Hok1) as Hwf1.
    rewrite Hslot in Hn1.
    assert (Hedge : p_edge (promises (this w1)) <> None).
    { apply (ok_cursor _ _ Hok1 _ Hc). }
    unfold hasNextPage, memo. rewrite Hslot. cbv [bind]. rewrite E.
    assert (Hfin : forall hx cx pm pp o,
      (pm = promises (this w1) /\ (length cx <= 1)%nat)
      \/ (p_model (promises (this w1)) = None
          /\ (exists x, pm = store_model x (promises (this w1)))
          /\ (length cx <= 2)%nat) ->
      paid w {| heap := heap w1 ++ hx; calls := calls w1 ++ cx;
                this := this_with (store_nextPage o pm) pp (this w1) |}).
    { intros hx cx pm pp o Hpm. eapply paid_trans; [exact Hp|].
      unfold paid, settled_slots. cbn. rewrite length_app, Hn1.
      destruct Hpm as [[-> Hl] | (Hm & [x ->] & Hl)]; cbn.
      - lia.
      - rewrite Hm. cbn. lia. }
    clear E Hc.
    destruct (end_cursor_of (edges_result RegExp w)) as [[[z|s|c]|]|e].
    + cbn [read_id]. cbv [ret get_this].
      rewrite aggregationAddPagination_none by exact Hwf1.
      js_unfold. heap_norm. cbn [snd].
      apply (Hfin [_] [_] _ _). left. split; [reflexivity | cbn; lia].
    + cbn [read_id]. cbv [ret get_this].
      rewrite aggregationAddPagination_none by exact Hwf1.
      js_unfold. heap_norm. cbn [snd].
      apply (Hfin [_] [_] _ _). left. split; [reflexivity | cbn; lia].
    + cbn [read_id]. cbv [ret get_this].
      rewrite aggregationAddPagination_some by exact Hwf1.
      destruct (pinned_cursor w1) as [a|] eqn:Hpin.
      * rewrite (ok_model_pinned _ _ Hok1 a Hpin).
        destruct (p_edge (promises (this w1))); [|contradiction].
        destruct (cursor_outcome w1 a) as [cm|e].
        -- js_unfold. heap_norm. cbn [snd].
           apply (Hfin [_] [_] _ _). left. split; [reflexivity | cbn; lia].
        -- rewrite store_as_update. cbn [snd].
           cbn [heap calls this]. rewrite <- !app_assoc.
           apply (Hfin _ _ _ _). left. split; [reflexivity | cbn; lia].
      * pose proof (ok_model_late _ _ Hok1 Hpin Hn1) as Hm. rewrite Hm.
        destruct (cursor_outcome w1 c) as [cm|e].
        -- js_unfold. heap_norm. cbn [snd].
           apply (Hfin [_; _] [_; _] _ _). right.
           split; [exact Hm | split; [eauto | cbn; lia]].
        -- rewrite store_as_update. cbn [snd].
           cbn [heap calls this]. rewrite <- !app_assoc.
           apply (Hfin _ _ _ _). right.
           split; [exact Hm | split; [eauto | cbn; lia]].
    + cbn [read_id]. cbv [throw]. rewrite store_as_update. cbn [snd].
      apply (Hfin [] [] _ _). left. split; [reflexivity | cbn; lia].
    + rewrite store_as_update. cbn [snd].
      apply (Hfin [] [] _ _). left. split; [reflexivity | cbn; lia].
Qed.

Lemma call_paid op w :
  slots_ok RegExp w -> paid w (call RegExp op w).
Proof.
  intros Hok. destruct op; cbn [call].
  - apply getTotalCount_paid, Hok.
  - now apply getEdges_paid.
  - now apply getEndCursor_paid.
  - now apply hasNextPage_paid.
Qed.

(** X13.  An instance in use has sent the store no more pipelines than
    it has settled slots among [count], [model], [edge] and [nextPage]:
    at most four in its whole life, however often and in whatever order
    its operations are called. *)
Theorem store_queried_at_most_four_times w :
  in_use RegExp w ->
  (length (calls w) <= settled_slots (promises (this w)))%nat
  /\ (length (calls w) <= 4)%nat.
Proof.
  intros Hin.
  assert (H : (length (calls w) <= settled_slots (promises (this w)))%nat).
  { induction Hin as [Model params h Hb | op w Hin IH].
    - rewrite constructor_world by exact Hb. cbn. lia.
    - pose proof (call_paid op w (in_use_slots_ok RegExp w Hin)) as Hp.
      unfold paid in Hp. lia. }
  split; [exact H|].
  etransitivity; [exact H|].
  unfold settled_slots.
  destruct (p_count _), (p_model _), (p_edge _), (p_nextPage _); cbn; lia.
Qed.

End Cost.

(* ===================================================================== *)
(** ** The unnamed variant *)

Module VariantFacts.

Section Facts.

Variable RegExp : RegExp_constructor.
Variable Number_gt : string -> N -> bool.

Lemma pushes {A} (g : A -> stage) (b : loc) (xs : list A) : forall h : list (list stage),
  (b < length h)%nat ->
  length (fold_left (fun h x => heap_push b (g x) h) xs h) = length h
  /\ fold_left (fun h x => heap_push b (g x) h) xs h !!! b = h !!! b ++ map g xs
  /\ forall a, a <> b ->
       fold_left (fun h x => heap_push b (g x) h) xs h !!! a = h !!! a.
Proof.
  induction xs as [|x xs IH]; intros h Hb; cbn [fold_left map].
  - rewrite app_nil_r. auto.
  - assert (Hb' : (b < length (heap_push b (g x) h))%nat).
    { unfold heap_push. now rewrite length_alter. }
    destruct (IH _ Hb') as (Hlen & Hat & Hother).
    unfold heap_push in Hlen, Hat, Hother |- *.
    rewrite Hlen, Hat, length_alter.
    rewrite list_lookup_total_alter_eq by exact Hb.
    rewrite <- app_assoc. split; [reflexivity|]. split; [reflexivity|].
    intros a Ha. rewrite Hother by exact Ha.
    apply list_lookup_total_alter_ne. congruence.
Qed.

(** X14.  The constructor of the variant does not copy the base
    pipeline: the instance keeps the caller's array, and the filter
    stages and the sort stage are pushed onto that array; no array is
    allocated and the caller's other arrays are left as they are. *)
Theorem variant_constructor_extends_input
  Model base pagination sort filters search (h : list (list stage)) :
  (base < length h)%nat ->
  aggregationPipeline
    (this (Variant.constructor Model base pagination sort filters search h)) = base
  /\ length (heap (Variant.constructor Model base pagination sort filters search h))
     = length h
  /\ heap (Variant.constructor Model base pagination sort filters search h) !!! base
     = h !!! base ++ VariantEngine.constructed_stages sort filters
  /\ forall a, a <> base ->
       heap (Variant.constructor Model base pagination sort filters search h) !!! a
       = h !!! a.
Proof.
  intros Hb. unfold Variant.constructor, VariantEngine.constructed_stages.
  cbn [heap this aggregationPipeline].
  destruct (pushes
              (fun filter => Match (CEq (Variant.filter_field filter)
                                        (Variant.filter_value filter)))
              base filters h Hb) as (Hlen & Hat & Hother).
  split; [reflexivity|].
  set (h1 := fold_left _ filters h) in *.
  destruct (sort_configured sort) as [[f o]|].
  - unfold heap_push. rewrite length_alter, Hlen.
    rewrite list_lookup_total_alter_eq by lia.
    split; [reflexivity|]. split; [rewrite app_assoc; f_equal; exact Hat|].
    intros a Ha. rewrite list_lookup_total_alter_ne by congruence. now apply Hother.
  - rewrite app_nil_r. auto.
Qed.


Lemma execute_snoc collection pipeline a :
  Store.execute collection (pipeline ++ [a])
  = Store.run_stage (Store.execute collection pipeline) a.
Proof. unfold Store.execute. now rewrite fold_left_app. Qed.

Lemma count_of_store collection pipeline :
  match Store.execute collection (pipeline ++ [Count "count"]) with
  | first :: _ => get "count" first
  | [] => Some (VNum 0)
  end
  = Some (VNum (Z.of_nat (length (Store.execute collection pipeline)))).
Proof.
  rewrite execute_snoc. cbn [Store.run_stage].
  destruct (Store.execute collection pipeline); reflexivity.
Qed.

(** X15.  In the variant the native count is the number of records of
    the base pipeline itself: no stage is stripped. *)
Theorem variant_count_is_base_count collection w :
  wf w ->
  p_count (promises (this w)) = None ->
  Model_ (this w) = Store.model collection ->
  Boolean_str (search (this w)) = false ->
  fst (VariantEngine.getTotalCount RegExp w)
  = Val (Some (VNum (Z.of_nat
      (length (Store.execute collection (base_of w)))))).
Proof.
  intros Hwf Hslot HM Hs.
  unfold VariantEngine.getTotalCount, memo, base_of. rewrite Hslot.
  cbv [bind get_this]. cbn [this]. rewrite Hs. js_unfold. heap_norm.
  rewrite HM. cbn [aggregate Store.model].
  pose proof (count_of_store collection
                (heap w !!! aggregationPipeline (this w))) as Hc.
  destruct (Store.execute collection
              (heap w !!! aggregationPipeline (this w) ++ [Count "count"]));
    cbn [fst]; now rewrite <- Hc.
Qed.

(** X16.  In the variant the cursor match is pushed behind the base
    pipeline: the cursor resolves to the first record of the base
    pipeline's results that has the identifier, and fails with
    CursorNotFound exactly when none has it. *)
Theorem variant_cursor_among_results collection w id :
  wf w ->
  p_model (promises (this w)) = None ->
  Model_ (this w) = Store.model collection ->
  fst (VariantEngine.findCursorModel id w)
  = match List.filter (fun d => Store.matches d (CEq "_id" (VOid id)))
            (Store.execute collection (base_of w)) with
    | [] => Err (CursorNotFound id)
    | first :: _ => Val first
    end.
Proof.
  intros Hwf Hslot HM.
  unfold VariantEngine.findCursorModel, memo, base_of. rewrite Hslot.
  js_unfold. heap_norm. rewrite HM. cbn [aggregate Store.model].
  rewrite execute_snoc. cbn [Store.run_stage].
  destruct (List.filter _ _); reflexivity.
Qed.

(** X17.  In the variant [hasNextPage] compares the number of records of
    the base pipeline with [this.perPage]: it answers true exactly when
    the base pipeline has more records than a page holds, whatever the
    cursor, and false as long as no page fetch has set [this.perPage]. *)
Theorem variant_hasNextPage_compares_count collection w :
  wf w ->
  p_nextPage (promises (this w)) = None ->
  Model_ (this w) = Store.model collection ->
  fst (VariantEngine.hasNextPage Number_gt w)
  = Val (match perPage (this w) with
         | Some n =>
             Nat.ltb (N.to_nat n) (length (Store.execute collection (base_of w)))
         | None => false
         end).
Proof.
  intros Hwf Hslot HM.
  unfold VariantEngine.hasNextPage, memo, base_of. rewrite Hslot.
  js_unfold. heap_norm. rewrite HM. cbn [aggregate Store.model fst].
  rewrite count_of_store. unfold VariantEngine.count_gt.
  destruct (perPage (this w)) as [n|]; [|reflexivity].
  f_equal.
  destruct (Z.ltb_spec (Z.of_N n)
              (Z.of_nat (length (Store.execute collection
                                   (heap w !!! aggregationPipeline (this w)))))),
           (Nat.ltb_spec (N.to_nat n)
              (length (Store.execute collection
                         (heap w !!! aggregationPipeline (this w)))));
    try reflexivity; lia.
Qed.

(** X18.  In the variant a page fetch in search mode is always rejected:
    [this.find] is not a method, so once the store has answered the fetch
    throws (a TypeError when there is no [after]); the rejection is what
    the slot holds. *)
Theorem variant_search_page_rejected w :
  wf w ->
  p_edge (promises (this w)) = None ->
  Boolean_str (search (this w)) = true ->
  (exists e,
      fst (VariantEngine.getEdges w) = Err e
      /\ p_edge (promises (this (snd (VariantEngine.getEdges w)))) = Some (Err e))
  /\ (pg_after (pagination (this w)) = None ->
      fst (VariantEngine.getEdges w) = Err TypeError).
Proof.
  intros Hwf Hslot Hs.
  unfold VariantEngine.getEdges, VariantEngine.aggregationAddPagination,
    VariantEngine.findCursorModel, memo.
  rewrite Hslot. cbv [bind get_this slice heap_slice set_heap]. cbn [heap calls this].
  destruct (pg_after (pagination (this w))) as [a|].
  - split; [|discriminate]. js_unfold.
    destruct (p_model (promises (this w))) as [[cm|e]|].
    + js_unfold. cbn [search set_perPage]. rewrite Hs. eexists. split; reflexivity.
    + eexists. split; reflexivity.
    + destruct (aggregate _ _) as [|cm found].
      * eexists. split; reflexivity.
      * js_unfold. cbn [search set_perPage set_promises]. rewrite Hs.
        eexists. split; reflexivity.
  - js_unfold. cbn [search set_perPage]. rewrite Hs.
    split; [eexists; split; reflexivity | reflexivity].
Qed.

End Facts.
End VariantFacts.

(* ===================================================================== *)
(** ** The theorems at work *)

Module Witnesses.
Import Scenario.


Lemma base_pipeline_frame_witness :
  heap (run_calls literal_RegExp [GetEdges; HasNextPage; GetTotalCount]
          (constructor (Store.model scores) busy_params busy_heap)) !!! 0%nat
  = [Limit 10]
  /\ aggregationPipeline
       (this (run_calls literal_RegExp [GetEdges; HasNextPage; GetTotalCount]
                (constructor (Store.model scores) busy_params busy_heap)))
     = 1%nat
  /\ base_of (run_calls literal_RegExp [GetEdges; HasNextPage; GetTotalCount]
                (constructor (Store.model scores) busy_params busy_heap))
     = [Limit 10; Match (CIn "score" [VNum 3; VNum 5]); Sort "score" Desc].
Proof.
  destruct (base_pipeline_frame literal_RegExp (Store.model scores) busy_params
              busy_heap [GetEdges; HasNextPage; GetTotalCount])
    as (Hcaller & _ & Haddr & Hbase); [cbn; lia|].
  split; [|split].
  - apply (Hcaller 0%nat). cbn. lia.
  - exact Haddr.
  - exact Hbase.
Defined.

Lemma hasNextPage_rejects_on_empty_page_witness :
  fst (getEndCursor literal_RegExp empty_world) = Val None
  /\ fst (hasNextPage literal_RegExp
            (run_calls literal_RegExp [HasNextPage; GetEdges; HasNextPage] empty_world))
     = Err TypeError
  /\ p_nextPage (promises (this (call literal_RegExp HasNextPage empty_world)))
     = Some (Err TypeError).
Proof.
  destruct (hasNextPage_rejects_on_empty_page literal_RegExp empty_world)
    as (Hcursor & Hnext & Hslot);
    [apply in_use_new; vm_compute; lia | vm_compute; reflexivity |].
  split; [exact Hcursor|]. split; [apply Hnext | exact Hslot].
Defined.

(** Three pages of two records over [five], without a sort. *)
Lemma pagination_law_without_sort_at_work :
  fetch_pages literal_RegExp (Store.model five) (params (Some 2%N) None no_sort None)
    caller_heap 3 None
  = Val (edges_of five).
Proof.
  rewrite (pagination_law_without_sort literal_RegExp five
             (params (Some 2%N) None no_sort None) caller_heap).
  - reflexivity.
  - cbn. lia.
  - reflexivity.
  - reflexivity.
  - split.
    + repeat (apply SSorted_cons || apply SSorted_nil || apply List.Forall_cons
              || apply List.Forall_nil);
        (eexists _, _; split; [reflexivity|]; split; [reflexivity|]; reflexivity).
    + repeat (apply List.Forall_cons || apply List.Forall_nil); discriminate.
  - intros d i Hin Hd. change (In d five) in Hin.
    repeat (destruct Hin as [<- | Hin]; [injection Hd as <-; vm_compute; discriminate|]).
    destruct Hin.
Defined.

(** The event loop on the second page over [falling]: the three calls
    made at once settle to the answers of the calls made one after the
    other, and the calls made afterwards answer the same promises. *)
Lemma event_loop_settles :
  let m := Async.run literal_RegExp falling_config busy_schedule Async.init in
  Async.result_of 1 (Async.results m)
  = Some (Val (Async.JEdges
       [ {| node := doc 2 5; cursor := Some (VOid 2) |};
         {| node := doc 3 3; cursor := Some (VOid 3) |} ]))
  /\ Async.result_of 0 (Async.results m) = Some (Val (Async.JBool true))
  /\ Async.result_of 2 (Async.results m)
     = Some (Val (Async.JCount (Some (VNum 3))))
  /\ fst (Async.invoke literal_RegExp falling_config HasNextPage m) = 0%nat
  /\ fst (Async.invoke literal_RegExp falling_config GetEdges m) = 1%nat
  /\ length (Async.store_log m) = 4%nat.
Proof. repeat split; vm_compute; reflexivity. Qed.

Lemma memoized_once_witness :
  Async.invoke literal_RegExp falling_config GetEdges
    (Async.run literal_RegExp falling_config busy_schedule
       (snd (Async.invoke literal_RegExp falling_config GetEdges Async.init)))
  = (0%nat,
     Async.run literal_RegExp falling_config busy_schedule
       (snd (Async.invoke literal_RegExp falling_config GetEdges Async.init)))
  /\ Async.runs_of Async.Edge_
       (Async.run literal_RegExp falling_config busy_schedule
          (snd (Async.invoke literal_RegExp falling_config GetEdges Async.init)))
     = [0%nat].
Proof.
  destruct (AsyncFacts.memoized_once literal_RegExp falling_config [] GetEdges
              busy_schedule) as (Hsame & Hruns & _).
  split; [exact Hsame | exact Hruns].
Defined.

Lemma getEdges_page_bound_witness :
  (length [ {| node := doc 3 9; cursor := Some (VOid 3) |} ]
   <= N.to_nat (page_size (pagination (this first_page))))%nat
  /\ (length (edges_of [named 1; named 2]) <= N.to_nat 2)%nat.
Proof.
  split.
  - destruct (getEdges_page_bound literal_RegExp scores first_page
                [ {| node := doc 3 9; cursor := Some (VOid 3) |} ]) as [Hnative _];
      [apply in_use_new; vm_compute; lia | reflexivity | vm_compute; reflexivity |].
    apply Hnative. reflexivity.
  - destruct (getEdges_page_bound literal_RegExp many_named
                (searching (Some 2%N) None) (edges_of [named 1; named 2]))
      as [_ Hsearch];
      [apply in_use_new; vm_compute; lia | reflexivity | vm_compute; reflexivity |].
    apply (Hsearch 2%N); reflexivity.
Defined.

Lemma getTotalCount_sends_one_query_witness :
  calls (snd (getTotalCount literal_RegExp first_page))
  = calls first_page ++ [count_query first_page]
  /\ snd (getTotalCount literal_RegExp (call literal_RegExp GetTotalCount first_page))
     = call literal_RegExp GetTotalCount first_page.
Proof.
  split.
  - destruct (getTotalCount_sends_one_query literal_RegExp first_page) as [Hfirst _];
      [unfold wf; vm_compute; lia |].
    apply Hfirst. reflexivity.
  - destruct (getTotalCount_sends_one_query literal_RegExp
                (call literal_RegExp GetTotalCount first_page)) as [_ Hagain];
      [unfold wf; vm_compute; lia |].
    apply Hagain. vm_compute. discriminate.
Defined.

Lemma getEdges_sends_witness :
  calls (snd (getEdges literal_RegExp (searching (Some 2%N) None)))
  = calls (searching (Some 2%N) None) ++ [base_of (searching (Some 2%N) None)]
  /\ calls (snd (getEdges literal_RegExp first_page))
     = calls first_page ++ [first_page_pipeline first_page]
  /\ calls (snd (getEdges literal_RegExp second_page))
     = calls second_page
       ++ [cursor_query second_page 1; page_pipeline second_page (doc 1 5) 1].
Proof.
  split; [|split].
  - destruct (getEdges_sends literal_RegExp (searching (Some 2%N) None))
      as (Hsearch & _); [unfold wf; vm_compute; lia | reflexivity | reflexivity |].
    apply Hsearch. reflexivity.
  - destruct (getEdges_sends literal_RegExp first_page) as (_ & Hfirst & _);
      [unfold wf; vm_compute; lia | reflexivity | reflexivity |].
    apply Hfirst; reflexivity.
  - destruct (getEdges_sends literal_RegExp second_page) as (_ & _ & Hafter);
      [unfold wf; vm_compute; lia | reflexivity | reflexivity |].
    apply Hafter; [reflexivity | reflexivity | vm_compute; reflexivity].
Defined.

Lemma end_cursor_of_page_witness :
  match fst (getEdges literal_RegExp first_page) with
  | Val edges =>
      edges = edges_of (map node edges)
      /\ fst (getEndCursor literal_RegExp first_page)
         = Val (match last (map node edges) with
                | Some doc => get "_id" doc
                | None => None
                end)
  | Err e => fst (getEndCursor literal_RegExp first_page) = Err e
  end.
Proof.
  apply (end_cursor_of_page literal_RegExp first_page).
  apply in_use_new. vm_compute. lia.
Defined.

Lemma answers_independent_of_history_witness :
  ask literal_RegExp HasNextPage
    (run_calls literal_RegExp [GetEdges; HasNextPage] second_page)
  = ask literal_RegExp HasNextPage
      (run_calls literal_RegExp [GetTotalCount] second_page).
Proof.
  apply (answers_independent_of_history literal_RegExp second_page HasNextPage).
  apply in_use_new. vm_compute. lia.
Defined.

Lemma count_independent_of_pagination_witness :
  fst (getTotalCount literal_RegExp
         (run_calls literal_RegExp [GetEdges]
            (constructor (Store.model scores)
               (params (Some 1%N) None by_score_desc None) caller_heap)))
  = fst (getTotalCount literal_RegExp
           (run_calls literal_RegExp [HasNextPage]
              (constructor (Store.model scores)
                 (with_pagination (params (Some 1%N) None by_score_desc None)
                    {| pg_first := Some 2%N; pg_after := Some 3%N;
             pg_after_form := AsString |})
                 caller_heap))).
Proof.
  apply (count_independent_of_pagination literal_RegExp). vm_compute. lia.
Defined.

Lemma hasNextPage_probe_witness :
  fst (hasNextPage literal_RegExp second_page)
  = Val (Nat.ltb 0
           (length (aggregate (Model_ (this second_page))
                      (base_of second_page
                       ++ [Match (COr (boundary_ors (sort (this second_page))
                                         (doc 1 5) 3));
                           Limit (page_size (pagination (this second_page)))])))).
Proof.
  apply (hasNextPage_probe literal_RegExp second_page
           [ {| node := doc 3 9; cursor := Some (VOid 3) |} ]
           {| node := doc 3 9; cursor := Some (VOid 3) |}).
  - apply in_use_new. vm_compute. lia.
  - vm_compute. reflexivity.
  - reflexivity.
  - reflexivity.
  - left. split; [reflexivity|]. exists 1%N. split; [reflexivity|].
    vm_compute. reflexivity.
Defined.

Lemma search_page_rejected_on_pattern_only_witness :
  fst (getEdges literal_RegExp (search_world "(" (Some 2%N) None AsString))
  = Err SyntaxError
  /\ (exists edges,
        fst (getEdges literal_RegExp
               (search_world "AD" (Some 2%N) (Some 40%N) AsString))
        = Val edges)
  /\ p_model (promises (this (call literal_RegExp GetEdges
                                (search_world "AD" (Some 2%N) (Some 40%N) AsString))))
     = p_model (promises (this (search_world "AD" (Some 2%N) (Some 40%N) AsString)))
  /\ fst (getEdges literal_RegExp
            (search_world "AD" (Some 2%N) (Some 40%N) AsString))
     = Val [].
Proof.
  split.
  - destruct (search_page_rejected_on_pattern_only literal_RegExp
                (search_world "(" (Some 2%N) None AsString) "(")
      as (Hrefused & _);
      [apply in_use_new; vm_compute; lia | reflexivity | discriminate |].
    apply Hrefused. reflexivity.
  - destruct (search_page_rejected_on_pattern_only literal_RegExp
                (search_world "AD" (Some 2%N) (Some 40%N) AsString) "AD")
      as (_ & Hpage & Hmodel & Hstale);
      [apply in_use_new; vm_compute; lia | reflexivity | discriminate |].
    split; [apply Hpage; discriminate|]. split; [exact Hmodel|].
    apply (Hstale 40%N); [discriminate | reflexivity |].
    repeat (apply List.Forall_cons || apply List.Forall_nil);
      apply not_equals_after; reflexivity.
Defined.

Lemma filterResults_without_cursor_witness :
  filterResults literal_RegExp few_named "AD" None
  = Val (List.filter (matching contains_ad) few_named)
  /\ filterResults literal_RegExp few_named "AD"
       (Some {| pg_first := Some 2%N; pg_after := None;
                pg_after_form := AsString |})
     = Val (take_page (Some 2%N) (List.filter (matching contains_ad) few_named))
  /\ filterResults literal_RegExp few_named "(" None = Err SyntaxError.
Proof.
  destruct (filterResults_without_cursor literal_RegExp few_named "AD")
    as [Hvalid _].
  destruct (Hvalid contains_ad eq_refl) as [Hall Hpage].
  split; [exact Hall|]. split; [apply Hpage|].
  destruct (filterResults_without_cursor literal_RegExp few_named "(")
    as [_ Hrefused].
  apply Hrefused. reflexivity.
Defined.

Lemma filterResults_sublist_witness :
  exists kept,
    filterResults literal_RegExp few_named "AD"
      (Some {| pg_first := Some 1%N; pg_after := Some 2%N;
               pg_after_form := AsString |})
    = Val kept
    /\ kept `sublist_of` List.filter (matching contains_ad) few_named.
Proof.
  apply (filterResults_sublist literal_RegExp few_named "AD"). reflexivity.
Defined.

Lemma hasNextPage_without_sort_witness :
  fst (hasNextPage literal_RegExp
         (constructor (Store.model five)
            (with_after (params (Some 2%N) None no_sort None) (Some 2%N))
            caller_heap))
  = Val (Nat.ltb 2 (length [doc 4 1; doc 6 9; doc 9 7])).
Proof.
  apply (hasNextPage_without_sort literal_RegExp five
           (params (Some 2%N) None no_sort None) caller_heap)
    with (pre := [doc 1 7; doc 2 7]).
  - cbn. lia.
  - reflexivity.
  - reflexivity.
  - split.
    + repeat (apply SSorted_cons || apply SSorted_nil || apply List.Forall_cons
              || apply List.Forall_nil);
        (eexists _, _; split; [reflexivity|]; split; [reflexivity|]; reflexivity).
    + repeat (apply List.Forall_cons || apply List.Forall_nil); discriminate.
  - intros d i Hin Hd. change (In d five) in Hin.
    repeat (destruct Hin as [<- | Hin]; [injection Hd as <-; vm_compute; discriminate|]).
    destruct Hin.
  - reflexivity.
  - exists [doc 1 7], (doc 2 7). split; reflexivity.
  - discriminate.
Defined.

Lemma store_queried_at_most_four_times_witness :
  (length (calls (run_calls literal_RegExp [HasNextPage; GetTotalCount; GetEdges]
                    first_page))
   <= settled_slots
        (promises (this (run_calls literal_RegExp
                           [HasNextPage; GetTotalCount; GetEdges] first_page))))%nat
  /\ (length (calls (run_calls literal_RegExp [HasNextPage; GetTotalCount; GetEdges]
                       first_page)) <= 4)%nat.
Proof.
  apply (store_queried_at_most_four_times literal_RegExp).
  apply run_calls_in_use, in_use_new. vm_compute. lia.
Defined.

Lemma variant_constructor_extends_input_witness :
  aggregationPipeline
    (this (Variant.constructor (Store.model scores) 0%nat
             {| pg_first := None; pg_after := None;
             pg_after_form := AsString |} by_score_desc score_five
             None busy_heap)) = 0%nat
  /\ heap (Variant.constructor (Store.model scores) 0%nat
             {| pg_first := None; pg_after := None;
             pg_after_form := AsString |} by_score_desc score_five
             None busy_heap) !!! 0%nat
     = [Limit 10; Match (CEq "score" (VNum 5)); Sort "score" Desc].
Proof.
  destruct (VariantFacts.variant_constructor_extends_input (Store.model scores)
              0%nat {| pg_first := None; pg_after := None;
             pg_after_form := AsString |} by_score_desc
              score_five None busy_heap) as (Haddr & _ & Hbase & _);
    [cbn; lia|].
  split; [exact Haddr | exact Hbase].
Defined.

Lemma variant_count_is_base_count_witness :
  fst (VariantEngine.getTotalCount literal_RegExp (variant_world (Some 1%N) None))
  = Val (Some (VNum (Z.of_nat
           (length (Store.execute scores
                      (base_of (variant_world (Some 1%N) None))))))).
Proof.
  apply (VariantFacts.variant_count_is_base_count literal_RegExp scores);
    [unfold wf; vm_compute; lia | reflexivity | reflexivity | reflexivity].
Defined.

Lemma variant_cursor_among_results_witness :
  fst (VariantEngine.findCursorModel 2 (variant_world (Some 1%N) (Some 2%N)))
  = match List.filter (fun d => Store.matches d (CEq "_id" (VOid 2)))
            (Store.execute scores
               (base_of (variant_world (Some 1%N) (Some 2%N)))) with
    | [] => Err (CursorNotFound 2)
    | first :: _ => Val first
    end.
Proof.
  apply (VariantFacts.variant_cursor_among_results scores);
    [unfold wf; vm_compute; lia | reflexivity | reflexivity].
Defined.

Lemma variant_hasNextPage_compares_count_witness :
  fst (VariantEngine.hasNextPage (fun _ _ => false)
         (snd (VariantEngine.getEdges (variant_world (Some 1%N) None))))
  = Val (match perPage (this (snd (VariantEngine.getEdges
                                     (variant_world (Some 1%N) None)))) with
         | Some n =>
             Nat.ltb (N.to_nat n)
               (length (Store.execute scores
                          (base_of (snd (VariantEngine.getEdges
                                           (variant_world (Some 1%N) None))))))
         | None => false
         end).
Proof.
  apply (VariantFacts.variant_hasNextPage_compares_count (fun _ _ => false) scores);
    [unfold wf; vm_compute; lia | reflexivity | reflexivity].
Defined.

Lemma variant_search_page_rejected_witness :
  (exists e,
      fst (VariantEngine.getEdges (variant_searching None)) = Err e
      /\ p_edge (promises (this (snd (VariantEngine.getEdges
                                        (variant_searching None)))))
         = Some (Err e))
  /\ fst (VariantEngine.getEdges (variant_searching None)) = Err TypeError.
Proof.
  destruct (VariantFacts.variant_search_page_rejected (variant_searching None))
    as [Hrejected Hfirst];
    [unfold wf; vm_compute; lia | reflexivity | reflexivity |].
  split; [exact Hrejected | apply Hfirst; reflexivity].
Defined.

End Witnesses.
